(** * Tambo music player: the two catalog proxies, the track fetch client,
      the agent tools and the preview player of the music card.

    The development follows the TypeScript sources:
    - [SearchRoute]  : app/api/music/search route handler  (GET)
    - [RandomRoute]  : app/api/music/random route handler  (GET)
    - [MusicData]    : services/music-data  (searchMusic, getRandomSong)
    - [Tambo]        : lib/tambo.ts         (the searchMusic / getRandomMusic tools)
    - [MusicCard]    : components/music/MusicCard (wrapper, core, preview player)

    Conventions of the embedding.
    - A JavaScript string is a Rocq [string], read as its UTF-8 bytes.
    - A JSON number is a rational; the numbers of the player, which can be
      [NaN] or infinite, have a type of their own ([MusicCard.number]).
    - [undefined] is [None] in an [option].
    - A thrown value is an [Error] carrying its message.
    - An async function is a computation in the monad [M], which threads the
      log of outbound requests, of [Math.random] draws and of [console.error]
      calls, and which ends in a value or in a thrown error. *)

From Stdlib Require Import ZArith QArith Qround String Ascii List Bool Lia Lqa DecimalString.
Import ListNotations.
Open Scope string_scope.

(* ================================================================== *)
(** ** JavaScript values that cross the wire *)

#[warnings="-register-all"]
Inductive JSON : Type :=
| JNull
| JBool (b : bool)
| JNum (q : Q)
| JStr (s : string)
| JArr (items : list JSON)
| JObj (members : list (string * JSON)).

Inductive exn : Type := Error (message : string).

Definition message (e : exn) : string := let 'Error m := e in m.

(** Truthiness of a possibly undefined JSON value ([!v] is its negation). *)
Definition truthy (v : option JSON) : bool :=
  match v with
  | None => false
  | Some JNull => false
  | Some (JBool b) => b
  | Some (JNum q) => negb (Qeq_bool q 0)
  | Some (JStr s) => negb (String.eqb s "")
  | Some (JArr _) => true
  | Some (JObj _) => true
  end.

Fixpoint lookup {A : Type} (k : string) (m : list (string * A)) : option A :=
  match m with
  | [] => None
  | (k', v) :: rest => if String.eqb k k' then Some v else lookup k rest
  end.

(** [`${n}`] for an integer [n]. *)
Definition string_of_Z (n : Z) : string := NilZero.string_of_int (Z.to_int n).

(** Message of the TypeError raised by reading member [k] of [null] or
    [undefined] (V8 wording). *)
Definition cannot_read (what : string) (k : string) : exn :=
  Error ("Cannot read properties of " ++ what ++ " (reading '" ++ k ++ "')").

(** [v.k] for a member name [k] that no prototype defines (this excludes
    [length]): only a plain object has such a member, reading it from
    [null] or [undefined] throws, and any other value yields [undefined]. *)
Definition member (v : option JSON) (k : string) : exn + option JSON :=
  match v with
  | None => inl (cannot_read "undefined" k)
  | Some JNull => inl (cannot_read "null" k)
  | Some (JObj m) => inr (lookup k m)
  | Some _ => inr None
  end.

(* ================================================================== *)
(** ** encodeURIComponent *)

Definition unreserved (c : ascii) : bool :=
  let n := nat_of_ascii c in
  ((65 <=? n) && (n <=? 90) || (97 <=? n) && (n <=? 122) || (48 <=? n) && (n <=? 57))%nat
  || existsb (Ascii.eqb c) ["-"; "_"; "."; "!"; "~"; "*"; "'"; "("; ")"]%char.

Definition hex_digit (n : nat) : ascii :=
  nth n (list_ascii_of_string "0123456789ABCDEF") "0"%char.

Fixpoint encodeURIComponent (s : string) : string :=
  match s with
  | EmptyString => EmptyString
  | String c rest =>
      if unreserved c then String c (encodeURIComponent rest)
      else
        let n := nat_of_ascii c in
        String "%" (String (hex_digit (n / 16)) (String (hex_digit (n mod 16))
          (encodeURIComponent rest)))
  end.

(* ================================================================== *)
(** ** The network, the random source and the console *)

Record HttpResponse : Type := mkHttp {
  status : Z;
  body : exn + JSON        (* what response.json() settles to *)
}.

Definition ok (r : HttpResponse) : bool :=
  (200 <=? status r)%Z && (status r <=? 299)%Z.

Inductive FetchResult : Type :=
| Rejected (e : exn)              (* transport failure *)
| Responded (r : HttpResponse).

(** What the code leaves behind: the URLs fetched, in order; how many times
    [Math.random] was called; what went to [console.error]. *)
Record Log : Type := mkLog {
  requests : list string;
  draws : nat;
  console : list (string * exn)
}.

Definition quiet : Log := mkLog [] 0 [].

(** A network that answers every request with status 200 and payload [d]. *)
Definition always_ok (d : JSON) : string -> FetchResult :=
  fun _ => Responded (mkHttp 200 (inr d)).

(** How a run ends. [Unmodelled] marks a run that leaves the fragment of
    JavaScript followed here (taking the length or an element of a string
    or of a plain object, printing a fractional number); no handler
    catches it and no theorem below speaks about such a run. *)
Inductive Outcome (A : Type) : Type :=
| Returned (a : A)
| Thrown (e : exn)
| Unmodelled.
Arguments Returned {A} a.
Arguments Thrown {A} e.
Arguments Unmodelled {A}.

Definition M (A : Type) : Type := Log -> Outcome A * Log.

Definition ret {A} (a : A) : M A := fun l => (Returned a, l).

Definition throw {A} (e : exn) : M A := fun l => (Thrown e, l).

Definition unmodelled {A} : M A := fun l => (Unmodelled, l).

Definition bind {A B} (m : M A) (k : A -> M B) : M B :=
  fun l => match m l with
           | (Returned a, l') => k a l'
           | (Thrown e, l') => (Thrown e, l')
           | (Unmodelled, l') => (Unmodelled, l')
           end.

(** [try { m } catch (error) { handler }]. *)
Definition try_catch {A} (m : M A) (handler : exn -> M A) : M A :=
  fun l => match m l with
           | (Thrown e, l') => handler e l'
           | r => r
           end.

Definition lift {A} (r : exn + A) : M A :=
  match r with inl e => throw e | inr a => ret a end.

Section Effects.

(** The environment of one invocation: what each URL answers, and the
    successive values of [Math.random()]. *)
Variable net : string -> FetchResult.
Variable random : nat -> Q.

Definition fetch (url : string) : M HttpResponse :=
  fun l =>
    let l' := mkLog (requests l ++ [url]) (draws l) (console l) in
    match net url with
    | Rejected e => (Thrown e, l')
    | Responded r => (Returned r, l')
    end.

Definition Math_random : M Q :=
  fun l => (Returned (random (draws l)),
            mkLog (requests l) (S (draws l)) (console l)).

End Effects.

Definition console_error (label : string) (e : exn) : M unit :=
  fun l => (Returned tt, mkLog (requests l) (draws l) (console l ++ [(label, e)])).

Declare Scope js_scope.
Delimit Scope js_scope with js.
Notation "x <- m ;; k" := (bind m (fun x => k))
  (at level 61, m at next level, right associativity) : js_scope.
Notation "m ;;; k" := (bind m (fun _ => k))
  (at level 61, right associativity) : js_scope.
Open Scope js_scope.

(** [NextResponse.json(body, { status })]. *)
Record Response : Type := mkResponse {
  resp_status : Z;
  resp_body : JSON
}.

Definition NextResponse_json (b : JSON) (st : Z) : Response := mkResponse st b.

Definition error_body (msg : string) : JSON := JObj [("error", JStr msg)].

(* ================================================================== *)
(** ** Search proxy: app/api/music/search *)

Module SearchRoute.

(** The request, as far as the handler reads it: the query parameters of
    its URL, in order. *)
Record NextRequest : Type := mkRequest {
  searchParams : list (string * string)
}.

Definition upstream_url (query : string) : string :=
  "https://api.deezer.com/search?q=" ++ encodeURIComponent query ++ "&limit=10".

Definition GET (net : string -> FetchResult) (request : NextRequest) : M Response :=
  try_catch
    (let query := lookup "q" (searchParams request) in
     match query with
     | None | Some "" =>
         ret (NextResponse_json (error_body "Query parameter is required") 400)
     | Some query =>
         response <- fetch net (upstream_url query) ;;
         if negb (ok response) then
           throw (Error ("Deezer API error: " ++ string_of_Z (status response)))
         else
           data <- lift (body response) ;;
           ret (NextResponse_json data 200)
     end)
    (fun error =>
       console_error "Music search API error:" error ;;;
       ret (NextResponse_json (error_body "Failed to search for music") 500)).

End SearchRoute.

(* ================================================================== *)
(** ** Discovery proxy: app/api/music/random *)

Module RandomRoute.

Definition MOOD_QUERIES : list string := [
  "happy upbeat songs";
  "chill relaxing music";
  "energetic workout songs";
  "feel good vibes";
  "motivational music";
  "peaceful ambient";
  "uplifting pop songs";
  "smooth jazz";
  "indie feel good";
  "classic rock hits"
].

(** [Math.floor(r * n)] for a draw [r] and a length [n]. *)
Definition random_index (r : Q) (n : nat) : Z :=
  Qfloor (r * inject_Z (Z.of_nat n)).

(** [xs[i]]: [undefined] outside the array. *)
Definition at_index {A : Type} (xs : list A) (i : Z) : option A :=
  if (i <? 0)%Z then None else nth_error xs (Z.to_nat i).

(** [encodeURIComponent] applied to a possibly undefined string. *)
Definition encode (q : option string) : string :=
  match q with
  | Some q => encodeURIComponent q
  | None => "undefined"
  end.

Definition upstream_url (randomQuery : option string) : string :=
  "https://api.deezer.com/search?q=" ++ encode randomQuery ++ "&limit=50".

(** An element that is [undefined] is serialised as [null]. *)
Definition single (randomTrack : option JSON) : JSON :=
  JObj [("data", JArr [match randomTrack with Some t => t | None => JNull end])].

Definition GET (net : string -> FetchResult) (random : nat -> Q) : M Response :=
  try_catch
    (r1 <- Math_random random ;;
     let randomQuery := at_index MOOD_QUERIES (random_index r1 (length MOOD_QUERIES)) in
     response <- fetch net (upstream_url randomQuery) ;;
     if negb (ok response) then
       throw (Error ("Deezer API error: " ++ string_of_Z (status response)))
     else
       data <- lift (body response) ;;
       data_data <- lift (member (Some data) "data") ;;
       match data_data with
       | Some (JArr items) =>
           if (0 <? length items)%nat then
             r2 <- Math_random random ;;
             let randomTrack := at_index items (random_index r2 (length items)) in
             ret (NextResponse_json (single randomTrack) 200)
           else ret (NextResponse_json (JObj [("data", JArr [])]) 200)
       | Some (JObj _) => unmodelled
       | Some (JStr s) =>
           if String.eqb s "" then ret (NextResponse_json (JObj [("data", JArr [])]) 200)
           else unmodelled
       | _ =>
           (* falsy, or a number or boolean, whose length is undefined *)
           ret (NextResponse_json (JObj [("data", JArr [])]) 200)
       end)
    (fun error =>
       console_error "Random music API error:" error ;;;
       ret (NextResponse_json (error_body "Failed to get random music") 500)).

(** The payloads whose [data] member the model follows: anything but a
    plain object or a non-empty string. *)
Definition data_followed (data : JSON) : bool :=
  match member (Some data) "data" with
  | inr (Some (JObj _)) => false
  | inr (Some (JStr s)) => String.eqb s ""
  | _ => true
  end.

(** The URL of the one upstream request: the mood phrase is chosen by
    the first draw. *)
Definition mood_url (random : nat -> Q) (l : Log) : string :=
  upstream_url (at_index MOOD_QUERIES (random_index (random (draws l)) (length MOOD_QUERIES))).

End RandomRoute.

(* ================================================================== *)
(** ** Track fetch client: services/music-data *)

Module MusicData.

(** [String(v)], as [new Error(v)] computes its message. A plain object
    prints as "[object Object]", unless it has a member of its own
    named toString: that member is not a function and hides the
    inherited method, so the conversion throws a TypeError (V8
    wording). An array and a number printed with a fraction or an
    exponent are not followed. *)
Definition toString (v : JSON) : option (exn + string) :=
  match v with
  | JNull => Some (inr "null")
  | JBool true => Some (inr "true")
  | JBool false => Some (inr "false")
  | JStr s => Some (inr s)
  | JObj members =>
      match lookup "toString" members with
      | Some _ => Some (inl (Error "Cannot convert object to primitive value"))
      | None => Some (inr "[object Object]")
      end
  | JNum q =>
      if ((Z.pos (Qden q) =? 1) && (Z.abs (Qnum q) <? 10 ^ 21))%Z
      then Some (inr (string_of_Z (Qnum q))) else None
  | JArr _ => None
  end.

Definition search_url (query : string) : string :=
  "/api/music/search?q=" ++ encodeURIComponent query.

(** The value returned is [data.data] when that is truthy and a fresh
    empty array otherwise. *)
Definition searchMusic (net : string -> FetchResult) (query : string) : M JSON :=
  try_catch
    (response <- fetch net (search_url query) ;;
     if negb (ok response) then
       throw (Error ("API error: " ++ string_of_Z (status response)))
     else
       data <- lift (body response) ;;
       data_error <- lift (member (Some data) "error") ;;
       let otherwise :=
         data_data <- lift (member (Some data) "data") ;;
         ret (match data_data with
              | Some v => if truthy (Some v) then v else JArr []
              | None => JArr []
              end) in
       match data_error with
       | Some v =>
           if truthy (Some v) then
             match toString v with
             | Some (inr msg) => throw (Error msg)
             | Some (inl type_error) => throw type_error
             | None => unmodelled
             end
           else otherwise
       | None => otherwise
       end)
    (fun error =>
       console_error "Error searching music:" error ;;;
       throw error).

(** An empty result list: [data] is an empty array, or is missing or
    otherwise falsy; and the payload carries no truthy [error]. *)
Definition empty_result (members : list (string * JSON)) : Prop :=
  truthy (lookup "error" members) = false
  /\ (lookup "data" members = Some (JArr []) \/ truthy (lookup "data" members) = false).

(** [data.data?.[0]]: the chain stops at [null] and [undefined]; an
    array gives its first element, a plain object its member "0", a
    number, a boolean and the empty string give [undefined]. *)
Definition first_of (data_data : option JSON) : M (option JSON) :=
  match data_data with
  | None | Some JNull => ret None
  | Some (JArr items) => ret (hd_error items)
  | Some (JObj members) => ret (lookup "0" members)
  | Some (JStr s) => if String.eqb s "" then ret None else unmodelled
  | Some (JBool _) | Some (JNum _) => ret None
  end.

Definition random_url : string := "/api/music/random".

(** The value returned is the first track when it is truthy and [null]
    otherwise. *)
Definition getRandomSong (net : string -> FetchResult) : M JSON :=
  try_catch
    (response <- fetch net random_url ;;
     if negb (ok response) then
       throw (Error ("API error: " ++ string_of_Z (status response)))
     else
       data <- lift (body response) ;;
       data_error <- lift (member (Some data) "error") ;;
       let otherwise :=
         data_data <- lift (member (Some data) "data") ;;
         first <- first_of data_data ;;
         ret (match first with
              | Some v => if truthy (Some v) then v else JNull
              | None => JNull
              end) in
       match data_error with
       | Some v =>
           if truthy (Some v) then
             match toString v with
             | Some (inr msg) => throw (Error msg)
             | Some (inl type_error) => throw type_error
             | None => unmodelled
             end
           else otherwise
       | None => otherwise
       end)
    (fun error =>
       console_error "Error getting random song:" error ;;;
       throw error).

(** [s.padStart(2, "0")]. *)
Definition padStart2 (s : string) : string :=
  match String.length s with
  | 0%nat => "00"
  | 1%nat => "0" ++ s
  | _ => s
  end.

(** formatDuration, for a whole number of seconds (the duration of a
    track is one) below 2^53 in size, where the division of the code,
    done on doubles, followed by [Math.floor] is the rounded-down
    quotient, and a number prints in plain decimal; [%] keeps the sign
    of the dividend. *)
Definition formatDuration (seconds : Z) : string :=
  let minutes := (seconds / 60)%Z in
  let remainingSeconds := Z.rem seconds 60 in
  string_of_Z minutes ++ ":" ++ padStart2 (string_of_Z remainingSeconds).

End MusicData.

(* ================================================================== *)
(** ** Agent tools: lib/tambo.ts *)

Module Tambo.

(** The object the tools return; a member read from a track that lacks
    it is [undefined]. *)
Record TrackCardPayload : Type := mkPayload {
  id : option JSON;
  title : option JSON;
  artist : option JSON;
  album : option JSON;
  duration : option JSON;
  preview : option JSON;
  link : option JSON;
  artistImage : option JSON;
  albumCover : option JSON;
  rank : option JSON
}.

Record Args : Type := mkArgs { query : option JSON }.

Definition no_music_found (query : string) : string :=
  "No music found for " ++ String (ascii_of_nat 34) query ++ String (ascii_of_nat 34) "".

(** [track.a.b]. *)
Definition member2 (track : option JSON) (a b : string) : exn + option JSON :=
  match member track a with
  | inl e => inl e
  | inr v => member v b
  end.

(** The object literal, member by member. A track that is not a plain
  object fails at [track.artist.name], before [link] is read. *)
Definition card_of (track : option JSON) : M TrackCardPayload :=
  id <- lift (member track "id") ;;
  title <- lift (member track "title") ;;
  artist <- lift (member2 track "artist" "name") ;;
  album <- lift (member2 track "album" "title") ;;
  duration <- lift (member track "duration") ;;
  preview <- lift (member track "preview") ;;
  link <- lift (member track "link") ;;
  artistImage <- lift (member2 track "artist" "picture_medium") ;;
  albumCover <- lift (member2 track "album" "cover_medium") ;;
  rank <- lift (member track "rank") ;;
  ret (mkPayload id title artist album duration preview link artistImage albumCover rank).

(** The tool registered under the name searchMusic. *)
Definition searchMusic_tool (net : string -> FetchResult) (args : Args)
  : M TrackCardPayload :=
  try_catch
    (match query args with
     | Some (JStr query) =>
         if String.eqb query "" then throw (Error "Invalid search query provided")
         else
           tracks <- MusicData.searchMusic net query ;;
           if negb (truthy (Some tracks)) then throw (Error (no_music_found query))
           else
             match tracks with
             | JArr [] => throw (Error (no_music_found query))
             | JArr (track :: _) => card_of (Some track)
             | JStr _ | JObj _ => unmodelled
             | JNull | JBool _ | JNum _ =>
                 (* no length, hence not 0, and no element 0 *)
                 card_of None
             end
     | _ => throw (Error "Invalid search query provided")
     end)
    (fun error =>
       console_error "Error in searchMusic tool:" error ;;;
       throw (Error (message error))).

(** The tool registered under the name getRandomMusic. *)
Definition getRandomMusic_tool (net : string -> FetchResult) : M TrackCardPayload :=
  try_catch
    (track <- MusicData.getRandomSong net ;;
     if negb (truthy (Some track)) then throw (Error "No random music found")
     else card_of (Some track))
    (fun error =>
       console_error "Error in getRandomMusic tool:" error ;;;
       throw (Error (message error))).

End Tambo.

(* ================================================================== *)
(** ** Music card: components/music/MusicCard *)

Module MusicCard.

(** *** Numbers of the player

    Positions and durations are JavaScript numbers. The finite ones are
    taken as exact rationals (rounding is not modelled, and there is a
    single zero); [NaN] and the two infinities are kept, since
    [a.duration] and [parseFloat] can produce them. *)
Inductive number : Type :=
| NaN
| PosInf
| NegInf
| Fin (q : Q).

Definition Qltb (x y : Q) : bool := negb (Qle_bool y x).

(** [a < b]. *)
Definition ltb (a b : number) : bool :=
  match a, b with
  | NaN, _ | _, NaN => false
  | PosInf, _ => false
  | _, NegInf => false
  | NegInf, _ => true
  | Fin _, PosInf => true
  | Fin x, Fin y => Qltb x y
  end.

(** [a <= b]. *)
Definition leb (a b : number) : bool :=
  match a, b with
  | NaN, _ | _, NaN => false
  | NegInf, _ => true
  | _, PosInf => true
  | PosInf, _ => false
  | _, NegInf => false
  | Fin x, Fin y => Qle_bool x y
  end.

Definition neg (a : number) : number :=
  match a with
  | NaN => NaN
  | PosInf => NegInf
  | NegInf => PosInf
  | Fin x => Fin (- x)
  end.

(** The sign of a finite factor or divisor applied to an infinity. *)
Definition signed (inf : number) (y : Q) : number :=
  if Qltb y 0 then neg inf else inf.

(** [a / b]. *)
Definition div (a b : number) : number :=
  match a, b with
  | NaN, _ | _, NaN => NaN
  | Fin x, Fin y =>
      if Qeq_bool y 0 then
        if Qltb 0 x then PosInf else if Qltb x 0 then NegInf else NaN
      else Fin (x / y)
  | Fin _, _ => Fin 0
  | inf, Fin y => signed inf y
  | _, _ => NaN
  end.

(** [a * b]. *)
Definition mul (a b : number) : number :=
  match a, b with
  | NaN, _ | _, NaN => NaN
  | Fin x, Fin y => Fin (x * y)
  | Fin x, inf => if Qeq_bool x 0 then NaN else signed inf x
  | inf, Fin y => if Qeq_bool y 0 then NaN else signed inf y
  | PosInf, inf => inf
  | NegInf, inf => neg inf
  end.

Definition Math_max (a b : number) : number :=
  match a, b with
  | NaN, _ | _, NaN => NaN
  | _, _ => if ltb a b then b else a
  end.

Definition Math_min (a b : number) : number :=
  match a, b with
  | NaN, _ | _, NaN => NaN
  | _, _ => if ltb b a then b else a
  end.

(** [d || 30]: zero and [NaN] are the falsy numbers. *)
Definition or_30 (d : number) : number :=
  match d with
  | NaN => Fin 30
  | Fin q => if Qeq_bool q 0 then Fin 30 else d
  | _ => d
  end.

(** *** Props *)

Record MusicCardProps : Type := mkProps {
  title : option string;
  artist : option string;
  album : option string;
  preview : option string;
  link : option string;
  albumCover : option string
}.

(** [!s] for a possibly undefined string is the negation of this. *)
Definition present (s : option string) : bool :=
  match s with
  | None => false
  | Some s => negb (String.eqb s "")
  end.

(** *** State of one mounted core: its hooks, and the page around it *)

Definition handle : Type := nat.
Bind Scope nat_scope with handle.

Inductive call : Type :=
| Play (a : handle)
| Pause (a : handle)
| SetCurrentTime (a : handle) (t : number).

(** Where an invocation of togglePlay is suspended: at the await of the
    branch that created the element, or at the await of the resume branch. *)
Inductive await : Type :=
| AwaitFirst
| AwaitResume.

Record Player : Type := mkPlayer {
  isPlaying : bool;
  audio : option handle;
  currentTime : number;
  audioDuration : number;
  isLoading : bool;
  elements : list string;  (* the Audio objects constructed, by source *)
  calls : list call;       (* what was invoked on them, in order *)
  awaiting : list await    (* suspended invocations of togglePlay *)
}.

Definition init : Player := mkPlayer false None (Fin 0) (Fin 30) false [] [] [].

Definition setIsPlaying (b : bool) (s : Player) : Player :=
  mkPlayer b (audio s) (currentTime s) (audioDuration s) (isLoading s)
           (elements s) (calls s) (awaiting s).

Definition setAudio (a : handle) (s : Player) : Player :=
  mkPlayer (isPlaying s) (Some a) (currentTime s) (audioDuration s) (isLoading s)
           (elements s) (calls s) (awaiting s).

Definition setCurrentTime (t : number) (s : Player) : Player :=
  mkPlayer (isPlaying s) (audio s) t (audioDuration s) (isLoading s)
           (elements s) (calls s) (awaiting s).

Definition setAudioDuration (d : number) (s : Player) : Player :=
  mkPlayer (isPlaying s) (audio s) (currentTime s) d (isLoading s)
           (elements s) (calls s) (awaiting s).

Definition setIsLoading (b : bool) (s : Player) : Player :=
  mkPlayer (isPlaying s) (audio s) (currentTime s) (audioDuration s) b
           (elements s) (calls s) (awaiting s).

(** [new Audio(src)]: the new element is the last one. *)
Definition new_Audio (src : string) (s : Player) : handle * Player :=
  (length (elements s),
   mkPlayer (isPlaying s) (audio s) (currentTime s) (audioDuration s) (isLoading s)
            (elements s ++ [src]) (calls s) (awaiting s)).

Definition invoke (c : call) (s : Player) : Player :=
  mkPlayer (isPlaying s) (audio s) (currentTime s) (audioDuration s) (isLoading s)
           (elements s) (calls s ++ [c]) (awaiting s).

Definition suspend (w : await) (s : Player) : Player :=
  mkPlayer (isPlaying s) (audio s) (currentTime s) (audioDuration s) (isLoading s)
           (elements s) (calls s) (awaiting s ++ [w]).

(** *** Handlers *)

(** The listeners attached to a new element. *)
Definition on_ended (s : Player) : Player :=
  setCurrentTime (Fin 0) (setIsPlaying false s).

Definition on_loadedmetadata (a_duration : number) (s : Player) : Player :=
  setIsLoading false (setAudioDuration (or_30 a_duration) s).

Definition on_error (s : Player) : Player := setIsLoading false s.

(** togglePlay, up to its await or, in the pause branch, to its end. *)
Definition togglePlay (preview : string) (s : Player) : Player :=
  match audio s with
  | None =>
      let s := setIsLoading true s in
      let '(a, s) := new_Audio preview s in
      let s := setAudio a s in
      suspend AwaitFirst (invoke (Play a) s)
  | Some audio =>
      if isPlaying s then setIsPlaying false (invoke (Pause audio) s)
      else suspend AwaitResume (invoke (Play audio) s)
  end.

(** How the awaited [play()] promise settles. *)
Inductive settled : Type :=
| Fulfils
| Rejects (e : exn).

(** How the promise of togglePlay itself settles. *)
Inductive completion : Type :=
| Resolves
| RejectsWith (e : exn).

(** The rest of togglePlay after its await; both awaits sit in a try
    whose catch swallows the rejection. *)
Definition resume (w : await) (r : settled) (s : Player) : completion * Player :=
  match w, r with
  | AwaitFirst, Fulfils => (Resolves, setIsPlaying true s)
  | AwaitFirst, Rejects _ => (Resolves, setIsLoading false s)
  | AwaitResume, Fulfils => (Resolves, setIsPlaying true s)
  | AwaitResume, Rejects _ => (Resolves, s)
  end.

(** [t] is [parseFloat(e.target.value)]. The position state is written
  first; the assignment to [audio.currentTime] is recorded as a call. *)
Definition handleSeek (t : number) (s : Player) : Player :=
  let s := setCurrentTime t s in
  match audio s with
  | Some audio => invoke (SetCurrentTime audio t) s
  | None => s
  end.

(** The callback of the progress interval; [v] is [audio.currentTime]. *)
Definition tick (v : number) (s : Player) : Player := setCurrentTime v s.

Definition pct (s : Player) : number :=
  Math_min (Fin 100) (Math_max (Fin 0) (mul (div (currentTime s) (audioDuration s)) (Fin 100))).

(** *** What is rendered *)

Record CardView : Type := mkView {
  heading : string;
  fill_width : number;        (* percent *)
  slider_max : number;
  slider_value : number;
  slider_disabled : bool;
  button_disabled : bool;
  aria_label : string
}.

Inductive Rendered : Type :=
| Null
| Skeleton
| Card (v : CardView).

Definition slider_disabled_of (s : Player) : bool :=
  isLoading s || match audio s with None => true | Some _ => false end.

(** The text shown for a string prop. *)
Definition text (s : option string) : string :=
  match s with Some s => s | None => "" end.

Definition MusicCardCore (props : MusicCardProps) (s : Player) : Rendered :=
  if negb (present (title props)) || negb (present (artist props))
     || negb (present (preview props))
  then Null
  else Card (mkView (text (title props)) (pct s) (audioDuration s) (currentTime s)
                    (slider_disabled_of s) (isLoading s)
                    (if isLoading s then "Loading..."
                     else if isPlaying s then "Pause" else "Play")).

(** The earlier card, without wrapper: its slider is never disabled and
    its label has no loading state. *)
Definition MusicCardV1 (props : MusicCardProps) (s : Player) : Rendered :=
  if negb (present (title props)) || negb (present (artist props))
     || negb (present (preview props))
  then Null
  else Card (mkView (text (title props)) (pct s) (audioDuration s) (currentTime s)
                    false (isLoading s)
                    (if isPlaying s then "Pause" else "Play")).

(** The hooks of the wrapper; its effects only move these two flags. *)
Record Wrapper : Type := mkWrapper {
  showSkeleton : bool;
  hasBeenInitialized : bool
}.

Definition isComponentComplete (props : MusicCardProps) : bool :=
  present (title props) && present (artist props) && present (preview props).

(** The component exported as MusicCard. *)
Definition MusicCardWithLoadingState
  (props : MusicCardProps) (w : Wrapper) (s : Player) : Rendered :=
  if showSkeleton w || negb (isComponentComplete props) then Skeleton
  else MusicCardCore props s.

(** *** The player as a transition system *)

Inductive event : Type :=
| Click                            (* the play button *)
| Settle (n : nat) (r : settled)   (* the n-th suspended togglePlay resumes *)
| Ended (a : handle)
| LoadedMetadata (a : handle) (a_duration : number)
| ErrorEvent (a : handle)
| Seek (t : number)                (* the slider *)
| Tick (v : number).               (* the progress interval fires *)

Fixpoint remove_nth {A : Type} (n : nat) (l : list A) : list A :=
  match n, l with
  | _, [] => []
  | O, _ :: rest => rest
  | S n, x :: rest => x :: remove_nth n rest
  end.

Definition take (n : nat) (s : Player) : Player :=
  mkPlayer (isPlaying s) (audio s) (currentTime s) (audioDuration s) (isLoading s)
           (elements s) (calls s) (remove_nth n (awaiting s)).

Definition exists_element (a : handle) (s : Player) : bool :=
  (a <? length (elements s))%nat.

(** The interval is set exactly while [isPlaying && audio] holds. *)
Definition interval_set (s : Player) : bool :=
  isPlaying s && match audio s with Some _ => true | None => false end.

(** One event on a mounted core whose preview is [preview]. A disabled
    control ignores its event; an element that was never constructed
    has no listener; a settle event needs a suspended invocation. *)
Definition step (preview : string) (s : Player) (e : event) : Player :=
  match e with
  | Click => if isLoading s then s else togglePlay preview s
  | Settle n r =>
      match nth_error (awaiting s) n with
      | Some w => snd (resume w r (take n s))
      | None => s
      end
  | Ended a => if exists_element a s then on_ended s else s
  | LoadedMetadata a d => if exists_element a s then on_loadedmetadata d s else s
  | ErrorEvent a => if exists_element a s then on_error s else s
  | Seek t => if slider_disabled_of s then s else handleSeek t s
  | Tick v => if interval_set s then tick v s else s
  end.

Definition run (preview : string) (s : Player) (es : list event) : Player :=
  fold_left (step preview) es s.

(** Every state passed through, the first one included. *)
Fixpoint states (preview : string) (s : Player) (es : list event) : list Player :=
  match es with
  | [] => [s]
  | e :: es => s :: states preview (step preview s e) es
  end.

(** The three statuses the button shows. *)
Inductive status : Type := Loading | Playing | Idle.

Definition status_of (s : Player) : status :=
  if isLoading s then Loading else if isPlaying s then Playing else Idle.

(** *** Vocabulary of the statements *)

(** One of the three props the card needs is undefined or empty. *)
Definition incomplete (props : MusicCardProps) : Prop :=
  present (title props) = false \/ present (artist props) = false
  \/ present (preview props) = false.

(** [0 <= currentTime <= audioDuration]. *)
Definition within_bounds (s : Player) : bool :=
  leb (Fin 0) (currentTime s) && leb (currentTime s) (audioDuration s).

(** An event that writes a position inside the current bounds, or a
    duration not below the current position. *)
Definition in_range (s : Player) (e : event) : bool :=
  match e with
  | Seek t => leb (Fin 0) t && leb t (audioDuration s)
  | Tick v => leb (Fin 0) v && leb v (audioDuration s)
  | LoadedMetadata _ d => leb (currentTime s) (or_30 d)
  | _ => true
  end.

(** What the slider can deliver: its input has [min = 0] and
    [max = audioDuration]. *)
Definition slider_range (s : Player) (e : event) : bool :=
  match e with
  | Seek t => leb (Fin 0) t && leb t (audioDuration s)
  | _ => true
  end.

(** Every event of the run passes the guard in the state where it occurs. *)
Fixpoint guarded (g : Player -> event -> bool) (preview : string)
  (s : Player) (es : list event) : bool :=
  match es with
  | [] => true
  | e :: es => g s e && guarded g preview (step preview s e) es
  end.

(** The duration of a media element is [NaN], positive infinity or a
    number that is not negative. *)
Definition duration_reported (e : event) : bool :=
  match e with
  | LoadedMetadata _ d => negb (ltb d (Fin 0))
  | _ => true
  end.

Definition is_zero (d : number) : bool :=
  match d with
  | Fin q => Qeq_bool q 0
  | _ => false
  end.

(** Events of the element and of the slider and interval, as opposed to
    a press of the button or the settling of a suspended togglePlay. *)
Definition resource_event (e : event) : bool :=
  match e with
  | Click | Settle _ _ => false
  | _ => true
  end.

(** The instance holds no element yet, or exactly the one it created
    for its preview. *)
Definition resource_inv (preview : string) (s : Player) : Prop :=
  (elements s = [] /\ audio s = None) \/ (elements s = [preview] /\ audio s = Some 0%nat).

(** *** The effects of the wrapper

    What the two effects of MusicCardWithLoadingState do to its hooks
    and to the timeouts they start. Both effects depend on
    [isComponentComplete, isStreaming, hasBeenInitialized]: they run
    after a render in which one of the three changed, each after the
    cleanup of its previous run, which clears the timeout that run had
    started. How long a timeout takes is not modelled, only whether it
    is pending. *)

Definition STREAMING_STAGES : list string :=
  ["STREAMING_RESPONSE"; "HYDRATING_COMPONENT"; "CHOOSING_COMPONENT"; "FETCHING_CONTEXT"].

(** [isStreaming], from [thread?.generationStage]. *)
Definition isStreaming_of (generationStage : option string) : bool :=
  match generationStage with
  | Some stage => existsb (String.eqb stage) STREAMING_STAGES
  | None => false
  end.

Record Mounted : Type := mkMounted {
  hooks : Wrapper;
  timer1 : bool;                       (* timeout of the first effect pending *)
  timer2 : bool;                       (* timeout of the second effect pending *)
  deps : option (bool * bool * bool)   (* dependencies at the last run *)
}.

(** Before the first render: [useState(true)], [useState(false)]. *)
Definition unmounted : Mounted := mkMounted (mkWrapper true false) false false None.

(** The first effect: the hooks after its state updates, and whether it
    started a timeout. *)
Definition effect1 (complete streaming : bool) (w : Wrapper) : Wrapper * bool :=
  if complete && negb (hasBeenInitialized w) then
    if streaming then (mkWrapper true (hasBeenInitialized w), false)
    else (w, true)
  else if complete && hasBeenInitialized w then
    (mkWrapper false (hasBeenInitialized w), false)
  else if negb complete then (mkWrapper true false, false)
  else (w, false).

(** The second effect only starts a timeout. *)
Definition effect2 (complete streaming : bool) (w : Wrapper) : bool :=
  negb streaming && complete && negb (hasBeenInitialized w).

Definition same_deps (a : option (bool * bool * bool)) (b : bool * bool * bool) : bool :=
  match a, b with
  | Some (c, s, i), (c', s', i') => Bool.eqb c c' && Bool.eqb s s' && Bool.eqb i i'
  | None, _ => false
  end.

(** One render and its effects. *)
Definition commit (complete streaming : bool) (m : Mounted) : Mounted :=
  let d := (complete, streaming, hasBeenInitialized (hooks m)) in
  if same_deps (deps m) d then m
  else
    let '(w, t1) := effect1 complete streaming (hooks m) in
    mkMounted w t1 (effect2 complete streaming (hooks m)) (Some d).

(** A render, and the render its state updates cause. *)
Definition settle (complete streaming : bool) (m : Mounted) : Mounted :=
  commit complete streaming (commit complete streaming m).

(** The callback of either timeout, and the renders that follow. As an
    event of the transition system a timeout stands for its callback
    together with the render it causes, so the states of a run are the
    committed ones; the callbacks that may run before that render are
    spelled out by [timeout_callback] and [firings] below. *)
Definition fire (m : Mounted) : Mounted :=
  let m' := mkMounted (mkWrapper false true) (timer1 m) (timer2 m) (deps m) in
  match deps m with
  | Some (complete, streaming, _) => settle complete streaming m'
  | None => m'
  end.

(** The callback of one timeout by itself, before any render: its two
    state updates; that timeout is no longer pending, its twin is
    untouched. *)
Definition timeout_callback (first : bool) (m : Mounted) : Mounted :=
  mkMounted (mkWrapper false true)
            (if first then false else timer1 m)
            (if first then timer2 m else false)
            (deps m).

(** The render that state updates cause, with the props and stage of
    the latest render. *)
Definition rerender_same (m : Mounted) : Mounted :=
  match deps m with
  | Some (complete, streaming, _) => settle complete streaming m
  | None => m
  end.

(** The callbacks that can run before that render when timeouts are
    pending: either one, or both in either order. *)
Definition firings : list (list bool) :=
  [[true]; [false]; [true; false]; [false; true]].

Inductive wrapper_event : Type :=
| Rerender (props : MusicCardProps) (generationStage : option string)
| Timeout1
| Timeout2.

Definition wrapper_step (m : Mounted) (e : wrapper_event) : Mounted :=
  match e with
  | Rerender props stage => settle (isComponentComplete props) (isStreaming_of stage) m
  | Timeout1 =>
      if timer1 m then fire (mkMounted (hooks m) false (timer2 m) (deps m)) else m
  | Timeout2 =>
      if timer2 m then fire (mkMounted (hooks m) (timer1 m) false (deps m)) else m
  end.

(** The wrapper from its first render on. *)
Definition wrapper_run (props : MusicCardProps) (stage : option string)
  (es : list wrapper_event) : Mounted :=
  fold_left wrapper_step es (wrapper_step unmounted (Rerender props stage)).

(** The props and stage of the latest render. *)
Fixpoint latest (props : MusicCardProps) (stage : option string)
  (es : list wrapper_event) : MusicCardProps * option string :=
  match es with
  | [] => (props, stage)
  | Rerender props' stage' :: es => latest props' stage' es
  | _ :: es => latest props stage es
  end.

(** *** The progress interval of the core

    The effect on [isPlaying, audio] and the unmount cleanup, with the
    intervals they set and clear. *)

Record Intervals : Type := mkIntervals {
  intervalRef : option nat;    (* intervalRef.current *)
  active : list nat;           (* intervals set and not yet cleared *)
  handed_out : nat;            (* how many setInterval has returned *)
  last_deps : option (bool * option handle)
}.

Definition no_intervals : Intervals := mkIntervals None [] 0 None.

Definition clearInterval (i : nat) (t : Intervals) : Intervals :=
  mkIntervals (intervalRef t) (filter (fun j => negb (Nat.eqb i j)) (active t))
              (handed_out t) (last_deps t).

(** The cleanup of either effect: [if (intervalRef.current)
    clearInterval(intervalRef.current)]. The id of a timer is never 0
    (ids are counted from 1 here), so the test is a test for [null]. *)
Definition cleanup (t : Intervals) : Intervals :=
  match intervalRef t with
  | Some i => clearInterval i t
  | None => t
  end.

Definition interval_effect (s : Player) (t : Intervals) : Intervals :=
  if interval_set s then
    let i := S (handed_out t) in
    mkIntervals (Some i) (active t ++ [i]) i (last_deps t)
  else
    match intervalRef t with
    | Some i =>
        let t := clearInterval i t in
        mkIntervals None (active t) (handed_out t) (last_deps t)
    | None => t
    end.

Definition same_interval_deps (a : option (bool * option handle))
  (b : bool * option handle) : bool :=
  match a, b with
  | Some (p, Some x), (p', Some x') => Bool.eqb p p' && Nat.eqb x x'
  | Some (p, None), (p', None) => Bool.eqb p p'
  | _, _ => false
  end.

(** After a render: the effect runs again when a dependency changed,
    its previous cleanup first. *)
Definition commit_interval (s : Player) (t : Intervals) : Intervals :=
  let d := (isPlaying s, audio s) in
  if same_interval_deps (last_deps t) d then t
  else
    let t := interval_effect s (cleanup t) in
    mkIntervals (intervalRef t) (active t) (handed_out t) (Some d).

(** Unmount runs the cleanups of both effects. *)
Definition unmount (t : Intervals) : Intervals := cleanup (cleanup t).

(** A step of the core with its intervals: a tick is the callback of an
    active interval. *)
Definition core_step (preview : string) (st : Player * Intervals) (e : event)
  : Player * Intervals :=
  let '(s, t) := st in
  let s' :=
    match e with
    | Tick v => match active t with [] => s | _ :: _ => tick v s end
    | _ => step preview s e
    end in
  (s', commit_interval s' t).

Definition core_mount : Player * Intervals := (init, commit_interval init no_intervals).

Definition core_run (preview : string) (es : list event) : Player * Intervals :=
  fold_left (core_step preview) es core_mount.

(** *** The time labels of the card *)

Definition Math_floor (a : number) : number :=
  match a with
  | Fin q => Fin (inject_Z (Qfloor q))
  | _ => a
  end.

(** Rounding towards zero. *)
Definition Qtrunc (x : Q) : Z := if Qltb x 0 then Qceiling x else Qfloor x.

(** [a % 60]: the remainder has the sign of [a]; it is [NaN] when [a]
    is not finite. *)
Definition mod_60 (a : number) : number :=
  match a with
  | Fin q => Fin (q - 60 * inject_Z (Qtrunc (q / 60)))
  | _ => NaN
  end.

(** [a.toString()], for the special values and for whole numbers that
    print in plain decimal (below 10^21 in size). *)
Definition Number_toString (a : number) : option string :=
  match a with
  | NaN => Some "NaN"
  | PosInf => Some "Infinity"
  | NegInf => Some "-Infinity"
  | Fin q =>
      let n := Qfloor q in
      if Qeq_bool q (inject_Z n) && (Z.abs n <? 10 ^ 21)%Z
      then Some (string_of_Z n) else None
  end.

(** The helper [format] of the card. *)
Definition format (s : number) : option string :=
  match Number_toString (Math_floor (div s (Fin 60))),
        Number_toString (Math_floor (mod_60 s)) with
  | Some minutes, Some seconds => Some (minutes ++ ":" ++ MusicData.padStart2 seconds)
  | _, _ => None
  end.

(** The two labels beside the slider. *)
Definition position_label (s : Player) : option string :=
  format (Math_floor (currentTime s)).

Definition duration_label (s : Player) : option string :=
  format (Math_floor (audioDuration s)).

(** *** Vocabulary of the statements about effects *)

(** The state of the wrapper after a render with the given flags: the
    skeleton is up exactly until initialization, a timeout is pending
    exactly while the data is complete, nothing streams and the card is
    not initialized, and initialization implies complete data. *)
Definition wrapper_shape (complete streaming : bool) (m : Mounted) : Prop :=
  deps m = Some (complete, streaming, hasBeenInitialized (hooks m))
  /\ showSkeleton (hooks m) = negb (hasBeenInitialized (hooks m))
  /\ (hasBeenInitialized (hooks m) = true -> complete = true)
  /\ timer1 m = complete && negb streaming && negb (hasBeenInitialized (hooks m))
  /\ timer2 m = complete && negb streaming && negb (hasBeenInitialized (hooks m)).

(** The intervals of a core in state [s]: one, referenced, while the
    interval should be set, none otherwise. *)
Definition intervals_shape (s : Player) (t : Intervals) : Prop :=
  last_deps t = Some (isPlaying s, audio s)
  /\ if interval_set s
     then exists i, intervalRef t = Some i /\ active t = [i]
     else intervalRef t = None /\ active t = [].

Definition call_target (c : call) : handle :=
  match c with
  | Play a | Pause a | SetCurrentTime a _ => a
  end.

End MusicCard.

(* ================================================================== *)
(** ** A route handler as seen by the browser *)

Module Wire.

(** What [fetch] of a route settles to once the handler has returned
    its [NextResponse.json]. *)
Definition served (r : Response) : FetchResult :=
  Responded (mkHttp (resp_status r) (inr (resp_body r))).

(** The browser side of the search route: whatever the URL, the answer
    is the one the handler gave for the query [q]. *)
Definition search_backend (upstream : string -> FetchResult) (q : string)
  : option (string -> FetchResult) :=
  match fst (SearchRoute.GET upstream (SearchRoute.mkRequest [("q", q)]) quiet) with
  | Returned r => Some (fun _ => served r)
  | _ => None
  end.

Definition random_backend (upstream : string -> FetchResult) (random : nat -> Q)
  : option (string -> FetchResult) :=
  match fst (RandomRoute.GET upstream random quiet) with
  | Returned r => Some (fun _ => served r)
  | _ => None
  end.

(** The log after one request and some console entries. *)
Definition logged (l : Log) (url : string) (entries : list (string * exn)) : Log :=
  mkLog (requests l ++ [url]) (draws l) (console l ++ entries).

(** The characters [encodeURIComponent] can produce. *)
Definition url_safe (c : ascii) : bool := unreserved c || Ascii.eqb c "%".

(** How many times a character occurs in a string. *)
Fixpoint occurrences (c : ascii) (s : string) : nat :=
  match s with
  | EmptyString => 0
  | String a rest => (if Ascii.eqb c a then 1 else 0) + occurrences c rest
  end.

(** A draw of [Math.random]. *)
Definition unit_interval (r : Q) : Prop := (0 <= r)%Q /\ (r < 1)%Q.

(** The ways the upstream request of a proxy fails. *)
Definition upstream_failed (answer : FetchResult) : Prop :=
  match answer with
  | Rejected _ => True
  | Responded r => ok r = false \/ exists e, body r = inl e
  end.

End Wire.

(* ================================================================== *)
(** ** Sample data for the examples *)

Module Samples.

Definition tracks3 : list JSON := [JStr "a"; JStr "b"; JStr "c"].

Definition no_title : MusicCard.MusicCardProps :=
  MusicCard.mkProps None (Some "Daft Punk") (Some "Discovery") (Some "https://cdn/p.mp3")
                    (Some "https://deezer/t/1") None.

Definition complete : MusicCard.MusicCardProps :=
  MusicCard.mkProps (Some "One More Time") (Some "Daft Punk") (Some "Discovery")
                    (Some "https://cdn/p.mp3") (Some "https://deezer/t/1") None.

End Samples.

(* ================================================================== *)
(** ** Search proxy: properties *)

Module SearchRouteFacts.
Import SearchRoute.

Example GET_sample :
  GET (always_ok (JObj [("data", JArr [JNum 7])])) (mkRequest [("q", "daft punk")]) quiet
  = (Returned (mkResponse 200 (JObj [("data", JArr [JNum 7])])),
     mkLog ["https://api.deezer.com/search?q=daft%20punk&limit=10"] 0 []).
Proof. reflexivity. Qed.

Example GET_missing_query :
  GET (always_ok JNull) (mkRequest []) quiet
  = (Returned (mkResponse 400 (error_body "Query parameter is required")), quiet).
Proof. reflexivity. Qed.

Lemma GET_issues_one_request net request query l :
  lookup "q" (searchParams request) = Some query ->
  query <> "" ->
  requests (snd (GET net request l)) = (requests l ++ [upstream_url query])%list.
Proof.
  intros Hq Hne. unfold GET, try_catch. rewrite Hq.
  destruct query as [|c rest]; [congruence|].
  unfold bind, fetch.
  destruct (net (upstream_url (String c rest))) as [e|r]; cbn; [reflexivity|].
  destruct (ok r); cbn; [|reflexivity].
  destruct (body r); reflexivity.
Qed.

(** C2. For every non-empty query the search proxy issues exactly one
    upstream request (the log of requests grows by that one URL), and
    when the upstream answers with a success status and a JSON payload
    [d], the proxy answers with status 200 and body [d] itself. *)
Theorem search_proxy_passthrough net request query l :
  lookup "q" (searchParams request) = Some query ->
  query <> "" ->
  requests (snd (GET net request l)) = (requests l ++ [upstream_url query])%list
  /\ forall r d,
       net (upstream_url query) = Responded r ->
       ok r = true ->
       body r = inr d ->
       fst (GET net request l) = Returned (mkResponse 200 d).
Proof.
  intros Hq Hne. split.
  - now apply GET_issues_one_request.
  - intros r d Hnet Hok Hbody. unfold GET, try_catch. rewrite Hq.
    destruct query as [|c rest]; [congruence|].
    unfold bind, fetch. rewrite Hnet. cbn. rewrite Hok. cbn.
    rewrite Hbody. reflexivity.
Qed.

Lemma search_proxy_passthrough_witness :
  let net := always_ok (JObj [("data", JArr [JNum 7])]) in
  let request := mkRequest [("q", "daft punk")] in
  requests (snd (GET net request quiet)) = [upstream_url "daft punk"]
  /\ fst (GET net request quiet)
     = Returned (mkResponse 200 (JObj [("data", JArr [JNum 7])])).
Proof.
  intros net request.
  destruct (search_proxy_passthrough net request "daft punk" quiet) as [H1 H2].
  - reflexivity.
  - discriminate.
  - split; [exact H1|].
    apply (H2 (mkHttp 200 (inr (JObj [("data", JArr [JNum 7])])))); reflexivity.
Defined.

End SearchRouteFacts.

(* ================================================================== *)
(** ** Discovery proxy: properties *)

Module RandomRouteFacts.
Import RandomRoute.

(** A draw in [0, 1) always selects a position of the list. *)
Lemma random_index_in_range (r : Q) (n : nat) :
  (0 <= r)%Q -> (r < 1)%Q -> (0 < n)%nat ->
  (0 <= random_index r n < Z.of_nat n)%Z.
Proof.
  intros H0 H1 Hn. unfold random_index.
  set (N := inject_Z (Z.of_nat n)).
  assert (HN : (0 < N)%Q).
  { unfold N. change 0%Q with (inject_Z 0). rewrite <- Zlt_Qlt. lia. }
  split.
  - change 0%Z with (Qfloor 0). apply Qfloor_resp_le. nra.
  - rewrite Zlt_Qlt. fold N.
    apply Qle_lt_trans with (r * N)%Q; [apply Qfloor_le | nra].
Qed.

(** Every position is selected by some draw in [0, 1). *)
Lemma random_index_onto (n k : nat) :
  (k < n)%nat ->
  exists r : Q, (0 <= r)%Q /\ (r < 1)%Q /\ random_index r n = Z.of_nat k.
Proof.
  intros Hk.
  assert (Hn : Z.of_nat n = Z.pos (Pos.of_nat n)).
  { rewrite <- positive_nat_Z, Nat2Pos.id; [reflexivity | lia]. }
  exists (Z.of_nat k # Pos.of_nat n). repeat split.
  - unfold Qle; cbn. lia.
  - unfold Qlt; cbn. lia.
  - unfold random_index. rewrite Hn.
    rewrite (Qfloor_comp _ (inject_Z (Z.of_nat k))); [apply Qfloor_Z|].
    rewrite Qmult_inject_Z_r. apply Qreduce_den_inject_Z_r.
Qed.

Example GET_picks_second :
  GET (always_ok (JObj [("data", JArr Samples.tracks3); ("total", JNum 3)]))
      (fun n => match n with O => 0 | _ => 1 # 2 end) quiet
  = (Returned (mkResponse 200 (JObj [("data", JArr [JStr "b"])])),
     mkLog ["https://api.deezer.com/search?q=happy%20upbeat%20songs&limit=50"] 2 []).
Proof. reflexivity. Qed.

Example GET_upstream_failure :
  GET (fun _ => Responded (mkHttp 503 (inr JNull))) (fun _ => 0) quiet
  = (Returned (mkResponse 500 (error_body "Failed to get random music")),
     mkLog ["https://api.deezer.com/search?q=happy%20upbeat%20songs&limit=50"] 1
           [("Random music API error:", Error "Deezer API error: 503")]).
Proof. reflexivity. Qed.

Lemma GET_on_list net random l r members items :
  net (mood_url random l) = Responded r ->
  ok r = true ->
  body r = inr (JObj members) ->
  lookup "data" members = Some (JArr items) ->
  fst (GET net random l)
  = Returned (NextResponse_json
      (match items with
       | [] => JObj [("data", JArr [])]
       | _ :: _ => single (at_index items
                     (random_index (random (S (draws l))) (length items)))
       end) 200).
Proof.
  intros Hnet Hok Hbody Hdata.
  unfold GET, try_catch, bind, Math_random, fetch. cbn [draws requests console].
  unfold mood_url in Hnet. rewrite Hnet. rewrite Hok. cbn [negb].
  rewrite Hbody. cbn [lift ret member]. rewrite Hdata. cbn [lift ret].
  destruct items as [|t items]; reflexivity.
Qed.

(** C6. When the upstream answers with a result list of length N >= 1
    and the random source selects index k < N, the discovery proxy
    answers 200 with the list holding exactly the element at index k;
    when the result list is empty it answers 200 with an empty list. *)
Theorem discovery_proxy_selection net random l r members items :
  net (mood_url random l) = Responded r ->
  ok r = true ->
  body r = inr (JObj members) ->
  lookup "data" members = Some (JArr items) ->
  (forall k track,
      (1 <= length items)%nat ->
      (k < length items)%nat ->
      random_index (random (S (draws l))) (length items) = Z.of_nat k ->
      nth_error items k = Some track ->
      fst (GET net random l)
      = Returned (mkResponse 200 (JObj [("data", JArr [track])])))
  /\ (length items = 0%nat ->
      fst (GET net random l) = Returned (mkResponse 200 (JObj [("data", JArr [])]))).
Proof.
  intros Hnet Hok Hbody Hdata.
  rewrite (GET_on_list net random l r members items Hnet Hok Hbody Hdata).
  split.
  - intros k track HN Hk Hidx Hnth.
    destruct items as [|t items]; [cbn in HN; lia|].
    rewrite Hidx. unfold at_index.
    destruct (Z.ltb_spec (Z.of_nat k) 0) as [Hneg|_]; [lia|].
    rewrite Nat2Z.id, Hnth. reflexivity.
  - intros H0. destruct items; [reflexivity | discriminate].
Qed.

Lemma discovery_proxy_selection_witness :
  fst (GET (always_ok (JObj [("data", JArr Samples.tracks3)]))
           (fun n => match n with O => 0 | _ => 1 # 2 end) quiet)
  = Returned (mkResponse 200 (JObj [("data", JArr [JStr "b"])])).
Proof.
  refine (proj1 (discovery_proxy_selection
            (always_ok (JObj [("data", JArr Samples.tracks3)]))
            (fun n => match n with O => 0 | _ => 1 # 2 end) quiet
            (mkHttp 200 (inr (JObj [("data", JArr Samples.tracks3)])))
            [("data", JArr Samples.tracks3)] Samples.tracks3 _ _ _ _) 1%nat (JStr "b") _ _ _ _);
    try reflexivity; cbn; lia.
Defined.

End RandomRouteFacts.

(* ================================================================== *)
(** ** Track fetch client and agent tool: properties *)

Module ClientFacts.
Import MusicData Tambo.

Example searchMusic_error_payload :
  searchMusic (always_ok (error_body "Failed to search for music")) "abba" quiet
  = (Thrown (Error "Failed to search for music"),
     mkLog ["/api/music/search?q=abba"] 0
           [("Error searching music:", Error "Failed to search for music")]).
Proof. reflexivity. Qed.

Example searchMusic_tool_first_track :
  fst (searchMusic_tool
         (always_ok (JObj [("data", JArr [JObj [("id", JNum 3); ("title", JStr "T");
                                            ("artist", JObj [("name", JStr "A")]);
                                            ("album", JObj [("title", JStr "L")])]])]))
         (mkArgs (Some (JStr "abba"))) quiet)
  = Returned (mkPayload (Some (JNum 3)) (Some (JStr "T")) (Some (JStr "A"))
                        (Some (JStr "L")) None None None None None None).
Proof. reflexivity. Qed.

Lemma searchMusic_on_empty net query l r members :
  net (search_url query) = Responded r ->
  ok r = true ->
  body r = inr (JObj members) ->
  empty_result members ->
  searchMusic net query l
  = (Returned (JArr []), mkLog (requests l ++ [search_url query]) (draws l) (console l)).
Proof.
  intros Hnet Hok Hbody [Herr Hdata].
  unfold searchMusic, try_catch, bind, fetch.
  rewrite Hnet, Hok. cbn [negb]. rewrite Hbody. cbn [lift ret member].
  assert (Hrest :
    match lookup "data" members with
    | Some v => if truthy (Some v) then v else JArr []
    | None => JArr []
    end = JArr []).
  { destruct Hdata as [-> | Hd]; [reflexivity|].
    destruct (lookup "data" members) as [v|]; [rewrite Hd|]; reflexivity. }
  destruct (lookup "error" members) as [v|]; [rewrite Herr|];
    cbn [lift ret]; rewrite Hrest; reflexivity.
Qed.

(** C1, as the code has it. On an empty result list the track fetch
    client returns the empty list, it does not raise; the error naming
    the query is raised one layer up, by the searchMusic tool, for every
    non-empty query. *)
Theorem empty_result_raised_by_tool net query l r members :
  query <> "" ->
  net (search_url query) = Responded r ->
  ok r = true ->
  body r = inr (JObj members) ->
  empty_result members ->
  fst (searchMusic net query l) = Returned (JArr [])
  /\ fst (searchMusic_tool net (mkArgs (Some (JStr query))) l)
     = Thrown (Error ("No music found for " ++ String (ascii_of_nat 34) query
                        ++ String (ascii_of_nat 34) "")).
Proof.
  intros Hq Hnet Hok Hbody Hempty.
  pose proof (searchMusic_on_empty net query l r members Hnet Hok Hbody Hempty) as Hs.
  split; [now rewrite Hs|].
  unfold searchMusic_tool, try_catch, bind. cbn [Tambo.query].
  destruct (String.eqb_spec query "") as [->|_]; [congruence|].
  rewrite Hs. reflexivity.
Qed.

Lemma empty_result_raised_by_tool_witness :
  fst (searchMusic (always_ok (JObj [("data", JArr [])])) "zzzz" quiet) = Returned (JArr [])
  /\ fst (searchMusic_tool (always_ok (JObj [("data", JArr [])]))
                           (mkArgs (Some (JStr "zzzz"))) quiet)
     = Thrown (Error ("No music found for " ++ String (ascii_of_nat 34) "zzzz"
                        ++ String (ascii_of_nat 34) "")).
Proof.
  apply (empty_result_raised_by_tool (always_ok (JObj [("data", JArr [])])) "zzzz" quiet
           (mkHttp 200 (inr (JObj [("data", JArr [])]))) [("data", JArr [])]).
  - discriminate.
  - reflexivity.
  - reflexivity.
  - reflexivity.
  - split; [reflexivity | left; reflexivity].
Defined.

(** C1 as stated fails: for the query "zzzz", whose result list is
    empty, searchMusic returns that empty list and raises nothing. *)
Lemma searchMusic_returns_empty_list :
  fst (searchMusic (always_ok (JObj [("data", JArr [])])) "zzzz" quiet) = Returned (JArr [])
  /\ ~ exists e, fst (searchMusic (always_ok (JObj [("data", JArr [])])) "zzzz" quiet) = Thrown e.
Proof.
  split; [reflexivity|]. intros [e He]. vm_compute in He. discriminate.
Qed.

End ClientFacts.

(* ================================================================== *)
(** ** Music card: properties *)

Module MusicCardFacts.
Import MusicCard.

(** *** Rendering *)

Example core_renders_card :
  MusicCardCore Samples.complete init
  = Card (mkView "One More Time" (Fin 0) (Fin 30) (Fin 0) true false "Play").
Proof. reflexivity. Qed.

Example wrapper_shows_core_when_ready :
  MusicCardWithLoadingState Samples.complete (mkWrapper false true) init
  = MusicCardCore Samples.complete init.
Proof. reflexivity. Qed.

(** C4, as the code has it. When title, artist or preview is absent (or
    empty), the core and the earlier card render nothing, while the
    wrapper exported as MusicCard renders the skeleton placeholder,
    whatever its own state. *)
Theorem incomplete_props_rendering props w s :
  incomplete props ->
  MusicCardCore props s = Null
  /\ MusicCardV1 props s = Null
  /\ MusicCardWithLoadingState props w s = Skeleton.
Proof.
  unfold incomplete, MusicCardCore, MusicCardV1, MusicCardWithLoadingState,
    isComponentComplete.
  intros [H | [H | H]]; rewrite H; cbn;
    destruct (present (title props)), (present (artist props)), (showSkeleton w);
    repeat split; reflexivity.
Qed.

Lemma incomplete_props_rendering_witness :
  MusicCardCore Samples.no_title init = Null
  /\ MusicCardV1 Samples.no_title init = Null
  /\ MusicCardWithLoadingState Samples.no_title (mkWrapper false true) init = Skeleton.
Proof.
  apply (incomplete_props_rendering Samples.no_title (mkWrapper false true) init).
  left. reflexivity.
Defined.

(** C4 as stated fails for the component that is exported and registered:
    without a title it renders the skeleton, which is not nothing. *)
Lemma exported_card_renders_skeleton :
  MusicCardWithLoadingState Samples.no_title (mkWrapper false true) init = Skeleton
  /\ MusicCardWithLoadingState Samples.no_title (mkWrapper false true) init <> Null.
Proof. split; [reflexivity | discriminate]. Qed.


(** *** Numbers *)

Lemma Qltb_lt x y : Qltb x y = true <-> (x < y)%Q.
Proof.
  unfold Qltb. rewrite negb_true_iff. split.
  - intros H. apply Qnot_le_lt. intros Hle.
    apply Qle_bool_iff in Hle. congruence.
  - intros H. destruct (Qle_bool y x) eqn:E; [|reflexivity].
    apply Qle_bool_iff in E. lra.
Qed.

Lemma Qltb_ge x y : Qltb x y = false <-> (y <= x)%Q.
Proof.
  unfold Qltb. rewrite negb_false_iff. apply Qle_bool_iff.
Qed.

Lemma Qeq_bool_false x y : Qeq_bool x y = false -> ~ (x == y)%Q.
Proof. intros H E. apply Qeq_bool_iff in E. congruence. Qed.

Lemma leb_trans a b c : leb a b = true -> leb b c = true -> leb a c = true.
Proof.
  destruct a, b, c; cbn; try congruence.
  rewrite !Qle_bool_iff. apply Qle_trans.
Qed.

Lemma or_30_positive d : ltb d (Fin 0) = false -> ltb (Fin 0) (or_30 d) = true.
Proof.
  destruct d as [| | |q]; cbn; try congruence; try reflexivity.
  intros Hneg. apply Qltb_ge in Hneg.
  destruct (Qeq_bool q 0) eqn:E; cbn; [reflexivity|].
  apply Qeq_bool_false in E. apply Qltb_lt.
  destruct (Qlt_le_dec 0 q) as [H|H]; [exact H|].
  exfalso. apply E. lra.
Qed.

Lemma positive_not_zero d : ltb (Fin 0) d = true -> is_zero d = false.
Proof.
  destruct d as [| | |q]; cbn; try congruence.
  intros H. apply Qltb_lt in H.
  destruct (Qeq_bool q 0) eqn:E; [|reflexivity].
  apply Qeq_bool_iff in E. lra.
Qed.

(** *** Runs *)

Lemma run_cons p s e es : run p s (e :: es) = run p (step p s e) es.
Proof. reflexivity. Qed.

Lemma run_app p s es es' : run p s (es ++ es') = run p (run p s es) es'.
Proof. unfold run. apply fold_left_app. Qed.

(** A property kept by every guarded step is kept by every guarded run. *)
Lemma run_preserves (P : Player -> Prop) (g : Player -> event -> bool) p :
  (forall s e, P s -> g s e = true -> P (step p s e)) ->
  forall es s, P s -> guarded g p s es = true -> P (run p s es).
Proof.
  intros Hstep. induction es as [|e es IH]; intros s Hs Hg; [exact Hs|].
  cbn in Hg. apply andb_true_iff in Hg as [He Hes].
  rewrite run_cons. apply IH; [apply Hstep; assumption | exact Hes].
Qed.

Lemma guarded_Forall (g : event -> bool) p es :
  Forall (fun e => g e = true) es ->
  forall s, guarded (fun _ => g) p s es = true.
Proof.
  induction 1 as [|e es He _ IH]; intros s; cbn; [reflexivity|].
  rewrite He. apply IH.
Qed.

Ltac step_cases :=
  repeat (match goal with
          | |- context [match nth_error ?l ?n with _ => _ end] =>
              destruct (nth_error l n) as [[|]|] eqn:?
          | |- context [resume _ ?r _] => is_var r; destruct r
          | |- context [if ?b then _ else _] => destruct b eqn:?
          | |- context [match audio ?s with _ => _ end] =>
              is_var s; destruct (audio s) eqn:?
          end; cbv beta iota).

(** *** The audio element of an instance *)

Lemma step_resource p s e : resource_inv p s -> resource_inv p (step p s e).
Proof.
  unfold resource_inv.
  intros [[He Ha] | [He Ha]]; destruct e; cbn [step]; unfold togglePlay, handleSeek;
    cbn; rewrite ?Ha, ?He; step_cases; cbn; rewrite ?Ha, ?He; try congruence; auto.
Qed.

Lemma run_resource p es : forall s, resource_inv p s -> resource_inv p (run p s es).
Proof.
  induction es as [|e es IH]; intros s H; [exact H|].
  rewrite run_cons. apply IH, step_resource, H.
Qed.

Lemma step_keeps_element p s e :
  elements s = [p] /\ audio s = Some 0%nat ->
  elements (step p s e) = [p] /\ audio (step p s e) = Some 0%nat.
Proof.
  intros [He Ha]; destruct e; cbn [step]; unfold togglePlay, handleSeek;
    cbn; rewrite ?Ha; step_cases; cbn; auto.
Qed.

Lemma run_keeps_element p es : forall s,
  elements s = [p] /\ audio s = Some 0%nat ->
  elements (run p s es) = [p] /\ audio (run p s es) = Some 0%nat.
Proof.
  induction es as [|e es IH]; intros s H; [exact H|].
  rewrite run_cons. apply IH, step_keeps_element, H.
Qed.

Lemma init_resource p : resource_inv p init.
Proof. left. split; reflexivity. Qed.

(** *** Duration *)

Lemma step_duration_positive p s e :
  ltb (Fin 0) (audioDuration s) = true ->
  duration_reported e = true ->
  ltb (Fin 0) (audioDuration (step p s e)) = true.
Proof.
  intros Hpos Hd. destruct e; cbn [step]; unfold togglePlay, handleSeek;
    cbn; step_cases; cbn; try exact Hpos.
  cbn in Hd. apply negb_true_iff in Hd. now apply or_30_positive.
Qed.

Lemma run_duration_positive p es :
  Forall (fun e => duration_reported e = true) es ->
  ltb (Fin 0) (audioDuration (run p init es)) = true.
Proof.
  intros H.
  apply (run_preserves (fun s => ltb (Fin 0) (audioDuration s) = true)
           (fun _ => duration_reported)).
  - intros s e. apply step_duration_positive.
  - reflexivity.
  - now apply guarded_Forall.
Qed.


Lemma or_30_not_zero d : is_zero (or_30 d) = false.
Proof.
  destruct d as [| | |q]; try reflexivity.
  cbn. destruct (Qeq_bool q 0) eqn:E; [reflexivity | exact E].
Qed.

Lemma step_duration_not_zero p s e :
  is_zero (audioDuration s) = false -> is_zero (audioDuration (step p s e)) = false.
Proof.
  intros Hz. destruct e; cbn [step]; unfold togglePlay, handleSeek;
    cbn -[or_30]; step_cases; cbn -[or_30]; try exact Hz.
  apply or_30_not_zero.
Qed.

Lemma run_duration_not_zero p es : is_zero (audioDuration (run p init es)) = false.
Proof.
  apply (run_preserves (fun s => is_zero (audioDuration s) = false) (fun _ _ => true)).
  - intros s e H _. now apply step_duration_not_zero.
  - reflexivity.
  - now apply guarded_Forall, Forall_forall.
Qed.

(** C10. The duration used as divisor starts at 30 and is written only
    by the metadata listener, which stores [a.duration || 30] and so
    replaces a zero or [NaN] duration by 30. In every reachable state it
    is therefore not zero, and it is strictly positive as long as the
    element reports durations that are [NaN], infinite or not negative,
    as media elements do. *)
Theorem audioDuration_strictly_positive p es :
  audioDuration init = Fin 30
  /\ or_30 NaN = Fin 30 /\ or_30 (Fin 0) = Fin 30
  /\ is_zero (audioDuration (run p init es)) = false
  /\ (Forall (fun e => duration_reported e = true) es ->
      ltb (Fin 0) (audioDuration (run p init es)) = true).
Proof.
  repeat split.
  - apply run_duration_not_zero.
  - apply run_duration_positive.
Qed.

Lemma audioDuration_strictly_positive_witness :
  let es := [Click; LoadedMetadata 0 (Fin 0); Settle 0 Fulfils;
             LoadedMetadata 0 NaN; Tick (Fin 2)] in
  is_zero (audioDuration (run "p.mp3" init es)) = false
  /\ ltb (Fin 0) (audioDuration (run "p.mp3" init es)) = true.
Proof.
  intros es.
  destruct (audioDuration_strictly_positive "p.mp3" es) as (_ & _ & _ & Hz & Hpos).
  split; [exact Hz|].
  apply Hpos. unfold es. repeat constructor.
Defined.

(** *** The progress fraction *)

Lemma seek_fields t s :
  currentTime (handleSeek t s) = t /\ audioDuration (handleSeek t s) = audioDuration s.
Proof. unfold handleSeek. cbn. destruct (audio s); split; reflexivity. Qed.

Lemma scaled_beyond (q v : Q) : (0 < q)%Q -> (q < v)%Q -> (100 <= v / q * 100)%Q.
Proof.
  intros Hq Hv.
  assert (H1 : (1 <= v / q)%Q).
  { apply Qle_shift_div_l; [exact Hq | lra]. }
  lra.
Qed.

Lemma scaled_below (q v : Q) : (0 < q)%Q -> (v < 0)%Q -> (v / q * 100 <= 0)%Q.
Proof.
  intros Hq Hv.
  assert (H1 : (v / q <= 0)%Q).
  { apply Qle_shift_div_r; [exact Hq | lra]. }
  lra.
Qed.

Lemma clamp_of_seek (d : number) (v : Q) :
  ltb (Fin 0) d = true ->
  (ltb d (Fin v) = true ->
   Math_min (Fin 100) (Math_max (Fin 0) (mul (div (Fin v) d) (Fin 100))) = Fin 100)
  /\ (ltb (Fin v) (Fin 0) = true ->
      Math_min (Fin 100) (Math_max (Fin 0) (mul (div (Fin v) d) (Fin 100))) = Fin 0).
Proof.
  destruct d as [| | |q]; cbn [ltb]; try discriminate.
  - intros _. split; [discriminate | reflexivity].
  - intros Hq. apply Qltb_lt in Hq.
    assert (Hz : Qeq_bool q 0 = false).
    { destruct (Qeq_bool q 0) eqn:E; [|reflexivity]. apply Qeq_bool_iff in E. lra. }
    cbn [div]. rewrite Hz. cbn [mul]. split; intros H; apply Qltb_lt in H.
    + pose proof (scaled_beyond q v Hq H) as Hx.
      assert (H0 : Qltb 0 (v / q * 100) = true) by (apply Qltb_lt; lra).
      assert (H100 : Qltb (v / q * 100) 100 = false) by (now apply Qltb_ge).
      unfold Math_max. cbn [ltb]. rewrite H0.
      unfold Math_min. cbn [ltb]. rewrite H100. reflexivity.
    + pose proof (scaled_below q v Hq H) as Hx.
      assert (H0 : Qltb 0 (v / q * 100) = false) by (now apply Qltb_ge).
      unfold Math_max. cbn [ltb]. rewrite H0. reflexivity.
Qed.

(** C8. In every reachable state, whatever the duration known there, a
    seek to a value beyond that duration shows the progress fraction
    100, and a seek to a value below 0 shows the fraction 0. *)
Theorem progress_fraction_clamped p es (v : Q) :
  Forall (fun e => duration_reported e = true) es ->
  let s := run p init es in
  (ltb (audioDuration s) (Fin v) = true -> pct (handleSeek (Fin v) s) = Fin 100)
  /\ (ltb (Fin v) (Fin 0) = true -> pct (handleSeek (Fin v) s) = Fin 0).
Proof.
  intros H s. unfold pct.
  destruct (seek_fields (Fin v) s) as [-> ->].
  apply clamp_of_seek. now apply run_duration_positive.
Qed.

Lemma progress_fraction_clamped_witness :
  let s := run "p.mp3" init [Click; LoadedMetadata 0 (Fin 30); Settle 0 Fulfils] in
  pct (handleSeek (Fin 45) s) = Fin 100 /\ pct (handleSeek (Fin (-5)) s) = Fin 0.
Proof.
  intros s.
  split.
  - apply (progress_fraction_clamped "p.mp3"
             [Click; LoadedMetadata 0 (Fin 30); Settle 0 Fulfils] 45).
    + repeat constructor.
    + reflexivity.
  - apply (progress_fraction_clamped "p.mp3"
             [Click; LoadedMetadata 0 (Fin 30); Settle 0 Fulfils] (-5)).
    + repeat constructor.
    + reflexivity.
Defined.

(** *** Position *)

Lemma step_within_bounds p s e :
  within_bounds s = true -> in_range s e = true -> within_bounds (step p s e) = true.
Proof.
  unfold within_bounds. intros Hs He.
  apply andb_true_iff in Hs as [H0 H1].
  destruct e; cbn [step]; unfold togglePlay, handleSeek;
    cbn -[leb or_30]; step_cases; cbn -[leb or_30]; rewrite ?H0, ?H1;
    try reflexivity; cbn -[leb or_30] in He.
  - (* ended *)
    rewrite (leb_trans _ _ _ H0 H1). reflexivity.
  - (* loadedmetadata *)
    rewrite He. reflexivity.
  - (* seek, with or without an element *) exact He.
  - exact He.
  - (* tick *) exact He.
Qed.

(** C5, as the code has it. The slider delivers only values between 0
    and [audioDuration] (the [min] and [max] of its input), so a seek
    keeps the position within bounds, as do play, pause and natural
    end. What the code does not control is the element: the position
    stays within [0, audioDuration] along every run in which each
    progress tick samples a position (never negative) not above
    [audioDuration] and each duration report is not below the current
    position. *)
Theorem position_within_bounds p es :
  guarded in_range p init es = true ->
  within_bounds (run p init es) = true.
Proof.
  intros H.
  apply (run_preserves (fun s => within_bounds s = true) in_range p).
  - intros s e. apply step_within_bounds.
  - reflexivity.
  - exact H.
Qed.

Lemma position_within_bounds_witness :
  within_bounds (run "p.mp3" init
    [Click; LoadedMetadata 0 (Fin 29); Settle 0 Fulfils; Tick (Fin 3); Seek (Fin 20);
     Click; Ended 0]) = true.
Proof.
  apply (position_within_bounds "p.mp3"
    [Click; LoadedMetadata 0 (Fin 29); Settle 0 Fulfils; Tick (Fin 3); Seek (Fin 20);
     Click; Ended 0]).
  reflexivity.
Defined.

(** C5 as stated fails in two runs whose seeks are all values the
    slider delivers. In the first, play is refused by the host, the
    user moves the enabled slider to 25 of the assumed 30 seconds, and
    the metadata then reports a clip of 20 seconds: the position is 25,
    above the duration. In the second, the element reports 29 seconds
    with its metadata and plays on to 29.5 (its duration can grow
    afterwards, and the code listens to no duration change): the tick
    stores 29.5, above the duration. *)
Lemma position_exceeds_duration :
  let late := [Click; Settle 0 (Rejects (Error "NotAllowedError")); Seek (Fin 25);
               LoadedMetadata 0 (Fin 20)] in
  let past := [Click; LoadedMetadata 0 (Fin 29); Settle 0 Fulfils; Tick (Fin (59 # 2))] in
  (guarded slider_range "p.mp3" init late = true
   /\ currentTime (run "p.mp3" init late) = Fin 25
   /\ audioDuration (run "p.mp3" init late) = Fin 20
   /\ within_bounds (run "p.mp3" init late) = false)
  /\ (guarded slider_range "p.mp3" init past = true
      /\ currentTime (run "p.mp3" init past) = Fin (59 # 2)
      /\ audioDuration (run "p.mp3" init past) = Fin 29
      /\ within_bounds (run "p.mp3" init past) = false).
Proof. repeat split. Qed.

(** *** Play requests *)

Example first_play_succeeds :
  run "p.mp3" init [Click; LoadedMetadata 0 (Fin 29); Settle 0 Fulfils; Tick (Fin 1)]
  = mkPlayer true (Some 0%nat) (Fin 1) (Fin 29) false ["p.mp3"] [Play 0] [].
Proof. reflexivity. Qed.

Lemma togglePlay_with_element p s a :
  audio s = Some a ->
  elements (togglePlay p s) = elements s
  /\ audio (togglePlay p s) = Some a
  /\ (isPlaying s = false ->
      calls (togglePlay p s) = (calls s ++ [Play a])%list
      /\ awaiting (togglePlay p s) = (awaiting s ++ [AwaitResume])%list
      /\ isPlaying (togglePlay p s) = false
      /\ isLoading (togglePlay p s) = isLoading s).
Proof.
  intros Ha. unfold togglePlay. rewrite Ha.
  destruct (isPlaying s) eqn:E; cbn; repeat split; auto; discriminate.
Qed.

(** C3, as the code has it. Once the first play request has created the
    audio element, the instance keeps that element through every later
    event, a load error and a rejected play included; a later play
    request creates no new element, and from a state that is not
    playing it calls play on the retained one. *)
Theorem retry_reuses_element p es :
  let s := run p init (Click :: es) in
  elements s = [p] /\ audio s = Some 0%nat
  /\ elements (togglePlay p s) = [p]
  /\ (isPlaying s = false -> calls (togglePlay p s) = (calls s ++ [Play 0])%list).
Proof.
  intros s.
  assert (H : elements s = [p] /\ audio s = Some 0%nat).
  { unfold s. rewrite run_cons. apply run_keeps_element. split; reflexivity. }
  destruct H as [He Ha].
  destruct (togglePlay_with_element p s 0%nat Ha) as (He' & _ & Hc).
  repeat split; try assumption.
  - now rewrite He'.
  - intros Hp. now apply Hc.
Qed.

Lemma retry_reuses_element_witness :
  let s := run "p.mp3" init
             [Click; ErrorEvent 0; Settle 0 (Rejects (Error "NotSupportedError"))] in
  elements (togglePlay "p.mp3" s) = ["p.mp3"]
  /\ calls (togglePlay "p.mp3" s) = [Play 0; Play 0].
Proof.
  intros s.
  destruct (retry_reuses_element "p.mp3"
              [ErrorEvent 0; Settle 0 (Rejects (Error "NotSupportedError"))])
    as (_ & _ & H3 & H4).
  split; [exact H3 | apply H4; reflexivity].
Defined.

(** C3 as stated fails: the first play request ends in a load error (the
    element fires error and its play promise rejects); the next play
    request creates no element and calls play on the failed one. *)
Lemma retry_creates_no_element :
  let failed := run "p.mp3" init
                  [Click; ErrorEvent 0; Settle 0 (Rejects (Error "NotSupportedError"))] in
  let retried := step "p.mp3" failed Click in
  elements failed = ["p.mp3"]
  /\ elements retried = ["p.mp3"]
  /\ length (elements retried) = length (elements failed)
  /\ calls retried = [Play 0; Play 0].
Proof. repeat split. Qed.

(** A resource event leaves the suspended invocations alone, never
    starts playback and never starts loading. *)
Lemma resource_step_quiet p s e :
  resource_event e = true ->
  awaiting (step p s e) = awaiting s
  /\ (isPlaying s = false -> isPlaying (step p s e) = false)
  /\ (isLoading s = false -> isLoading (step p s e) = false).
Proof.
  intros He. destruct e; try discriminate; cbn [step]; unfold handleSeek;
    cbn; step_cases; cbn; repeat split; auto.
Qed.

Lemma states_Forall (P : Player -> Prop) (g : event -> bool) p :
  (forall s e, P s -> g e = true -> P (step p s e)) ->
  forall es s, P s -> Forall (fun e => g e = true) es ->
  Forall P (states p s es) /\ P (run p s es).
Proof.
  intros Hstep. induction es as [|e es IH]; intros s Hs Hes.
  - split; [repeat constructor|]; exact Hs.
  - inversion Hes as [|? ? He Hes']; subst.
    destruct (IH (step p s e) (Hstep s e Hs He) Hes') as [H1 H2].
    split; [constructor; assumption | exact H2].
Qed.

Lemma resume_after_rejection w e s : fst (resume w (Rejects e) s) = Resolves.
Proof. destruct w; reflexivity. Qed.

(** C7, as the code has it. A play request made when nothing is playing,
    loading or suspended, and whose play promise is rejected (load
    failure or refusal by the host), never reaches playing, ends idle,
    and togglePlay resolves: no failure propagates. It passes through
    loading when the instance has no audio element yet; when an element
    is retained from an earlier attempt, the request goes through the
    resume branch and the status stays idle throughout. *)
Theorem rejected_play_request p s es e :
  isPlaying s = false -> isLoading s = false -> awaiting s = [] ->
  Forall (fun x => resource_event x = true) es ->
  let s1 := step p s Click in
  let s2 := run p s1 es in
  let s3 := step p s2 (Settle 0 (Rejects e)) in
  Forall (fun x => isPlaying x = false) (states p s1 es)
  /\ isPlaying s3 = false
  /\ status_of s3 = Idle
  /\ (forall w x, fst (resume w (Rejects e) x) = Resolves)
  /\ (audio s = None -> status_of s1 = Loading)
  /\ (audio s <> None -> Forall (fun x => status_of x = Idle) (states p s1 es)).
Proof.
  intros Hp Hl Hw Hes s1 s2 s3.
  assert (H1 : isPlaying s1 = false
               /\ ((audio s = None /\ awaiting s1 = [AwaitFirst] /\ isLoading s1 = true)
                   \/ (audio s <> None /\ awaiting s1 = [AwaitResume]
                       /\ isLoading s1 = false))).
  { unfold s1. cbn [step]. rewrite Hl. unfold togglePlay.
    destruct (audio s) as [a|] eqn:Ha; rewrite ?Hp; cbn; rewrite ?Hw; (split; [auto|]).
    - right. repeat split; auto. discriminate.
    - left. repeat split; auto. }
  destruct H1 as [Hp1 Hcase].
  (* along the resource events *)
  destruct (states_Forall
              (fun x => isPlaying x = false /\ awaiting x = awaiting s1
                        /\ (isLoading s1 = false -> isLoading x = false))
              resource_event p) with (es := es) (s := s1) as [Hall Hend].
  { intros x ev (Hx1 & Hx2 & Hx3) Hev.
    destruct (resource_step_quiet p x ev Hev) as (Ha & Hb & Hc).
    repeat split; [auto | congruence | auto]. }
  { repeat split; auto. }
  { exact Hes. }
  fold s2 in Hend. destruct Hend as (Hp2 & Hw2 & Hl2).
  assert (Hplaying : Forall (fun x => isPlaying x = false) (states p s1 es)).
  { eapply Forall_impl; [|exact Hall]. cbn. intros x Hx. apply Hx. }
  assert (H3 : isPlaying s3 = false /\ isLoading s3 = false).
  { unfold s3. cbn [step]. rewrite Hw2.
    destruct Hcase as [(_ & -> & _) | (_ & -> & Hl1)]; cbn; auto. }
  destruct H3 as [Hp3 Hl3].
  repeat split.
  - exact Hplaying.
  - exact Hp3.
  - unfold status_of. now rewrite Hl3, Hp3.
  - intros w x. apply resume_after_rejection.
  - intros Ha. destruct Hcase as [(_ & _ & Hl1) | (Hn & _)]; [|congruence].
    unfold status_of. now rewrite Hl1.
  - intros Ha. destruct Hcase as [(Hn & _) | (_ & _ & Hl1)]; [congruence|].
    eapply Forall_impl; [|exact Hall]. cbn. intros x (Hx1 & _ & Hx3).
    unfold status_of. now rewrite (Hx3 Hl1), Hx1.
Qed.

Lemma rejected_play_request_witness :
  let e := Error "NotSupportedError" in
  let s1 := step "p.mp3" init Click in
  let s3 := step "p.mp3" (run "p.mp3" s1 [ErrorEvent 0]) (Settle 0 (Rejects e)) in
  Forall (fun x => isPlaying x = false) (states "p.mp3" s1 [ErrorEvent 0])
  /\ status_of s1 = Loading /\ status_of s3 = Idle.
Proof.
  intros e s1 s3.
  destruct (rejected_play_request "p.mp3" init [ErrorEvent 0] e)
    as (H1 & _ & H3 & _ & H5 & _).
  - reflexivity.
  - reflexivity.
  - reflexivity.
  - repeat constructor.
  - split; [exact H1|]. split; [apply H5; reflexivity | exact H3].
Defined.

(** C7 as stated fails for a retry: after a failed first attempt the
    player is idle; the next play request, rejected again, is idle at
    every point and never shows loading. *)
Lemma retry_never_loading :
  let e := Error "NotSupportedError" in
  let failed := run "p.mp3" init [Click; ErrorEvent 0; Settle 0 (Rejects e)] in
  status_of failed = Idle
  /\ map status_of (states "p.mp3" failed [Click; Settle 0 (Rejects e)])
     = [Idle; Idle; Idle].
Proof. split; reflexivity. Qed.

(** C9. In every reachable state with an audio element, the ended event
    sets the position to 0; the play request that follows creates no
    element and calls play on the same one, and when that play promise
    fulfils the player is playing again. *)
Theorem replay_after_end p es a :
  let s := run p init es in
  exists_element a s = true ->
  let s1 := step p s (Ended a) in
  let s2 := togglePlay p s1 in
  currentTime s1 = Fin 0
  /\ isPlaying s1 = false
  /\ audio s1 = Some a
  /\ elements s2 = elements s1
  /\ audio s2 = Some a
  /\ calls s2 = (calls s1 ++ [Play a])%list
  /\ isPlaying (step p s2 (Settle (length (awaiting s1)) Fulfils)) = true.
Proof.
  intros s Hex s1 s2.
  assert (Hres : elements s = [p] /\ audio s = Some 0%nat).
  { destruct (run_resource p es init (init_resource p)) as [[He _] | H]; [|exact H].
    fold s in He. unfold exists_element in Hex. rewrite He in Hex. discriminate. }
  destruct Hres as [He Ha].
  assert (a = 0)%nat as ->.
  { unfold exists_element in Hex. rewrite He in Hex.
    apply Nat.ltb_lt in Hex. cbn in Hex. lia. }
  assert (Hs1 : s1 = on_ended s) by (unfold s1; cbn [step]; now rewrite Hex).
  assert (Ha1 : audio s1 = Some 0%nat) by (rewrite Hs1; exact Ha).
  assert (Hp1 : isPlaying s1 = false) by (rewrite Hs1; reflexivity).
  destruct (togglePlay_with_element p s1 0%nat Ha1) as (E1 & E2 & E3).
  destruct (E3 Hp1) as (C1 & C2 & C3 & C4).
  repeat split; try assumption.
  - rewrite Hs1. reflexivity.
  - fold s2 in C2. cbn [step]. rewrite C2.
    rewrite nth_error_app2, Nat.sub_diag by lia. cbn. reflexivity.
Qed.

Lemma replay_after_end_witness :
  let s := run "p.mp3" init [Click; LoadedMetadata 0 (Fin 29); Settle 0 Fulfils;
                             Tick (Fin 29)] in
  let s1 := step "p.mp3" s (Ended 0) in
  let s2 := togglePlay "p.mp3" s1 in
  currentTime s1 = Fin 0 /\ elements s2 = elements s1 /\ calls s2 = [Play 0; Play 0].
Proof.
  intros s s1 s2.
  destruct (replay_after_end "p.mp3"
              [Click; LoadedMetadata 0 (Fin 29); Settle 0 Fulfils; Tick (Fin 29)] 0%nat)
    as (H1 & _ & _ & H4 & _ & H6 & _).
  - reflexivity.
  - split; [exact H1|]. split; [exact H4 | exact H6].
Defined.

End MusicCardFacts.

(* ================================================================== *)
(** ** The two proxies: errors and edges *)

Module ProxyFacts.
Import Wire.

Ltac monad :=
  unfold try_catch, bind, fetch, Math_random, console_error, lift, ret, throw,
    unmodelled, NextResponse_json.

Lemma search_GET_missing net request l :
  lookup "q" (SearchRoute.searchParams request) = None
  \/ lookup "q" (SearchRoute.searchParams request) = Some "" ->
  SearchRoute.GET net request l
  = (Returned (mkResponse 400 (error_body "Query parameter is required")), l).
Proof.
  unfold SearchRoute.GET. intros [H | H]; rewrite H; reflexivity.
Qed.

(** X1. Without a query parameter, or with an empty one, the search
    proxy answers 400 with its fixed message and leaves no trace: no
    upstream request, nothing on the console. *)
Theorem search_proxy_rejects_missing_query net request l :
  lookup "q" (SearchRoute.searchParams request) = None
  \/ lookup "q" (SearchRoute.searchParams request) = Some "" ->
  SearchRoute.GET net request l
  = (Returned (mkResponse 400 (error_body "Query parameter is required")), l).
Proof. exact (search_GET_missing net request l). Qed.

Lemma search_proxy_rejects_missing_query_witness :
  SearchRoute.GET (always_ok JNull) (SearchRoute.mkRequest [("limit", "5"); ("q", "")]) quiet
  = (Returned (mkResponse 400 (error_body "Query parameter is required")), quiet).
Proof.
  apply (search_proxy_rejects_missing_query (always_ok JNull)
           (SearchRoute.mkRequest [("limit", "5"); ("q", "")]) quiet).
  right. reflexivity.
Defined.

(** X2. The search proxy never throws past its boundary: whatever the
    request and whatever the upstream does, it returns a response,
    whose status is 200, 400 or 500, after at most one upstream
    request. *)
Theorem search_proxy_always_responds net request l :
  exists r,
    fst (SearchRoute.GET net request l) = Returned r
    /\ (resp_status r = 200 \/ resp_status r = 400 \/ resp_status r = 500)%Z
    /\ (length (requests (snd (SearchRoute.GET net request l)))
        <= S (length (requests l)))%nat.
Proof.
  unfold SearchRoute.GET.
  destruct (lookup "q" (SearchRoute.searchParams request)) as [[|c q]|];
    try (eexists; cbn; repeat split; auto; lia).
  monad.
  destruct (net (SearchRoute.upstream_url (String c q))) as [e|r]; cbn.
  - eexists; repeat split; auto. rewrite length_app; cbn; lia.
  - destruct (ok r); cbn; [destruct (body r); cbn|];
      eexists; repeat split; auto; rewrite length_app; cbn; lia.
Qed.

Lemma search_GET_failure net request query l :
  lookup "q" (SearchRoute.searchParams request) = Some query ->
  query <> "" ->
  upstream_failed (net (SearchRoute.upstream_url query)) ->
  fst (SearchRoute.GET net request l)
  = Returned (mkResponse 500 (error_body "Failed to search for music"))
  /\ exists e, console (snd (SearchRoute.GET net request l))
               = (console l ++ [("Music search API error:", e)])%list.
Proof.
  intros Hq Hne Hfail. unfold SearchRoute.GET. rewrite Hq.
  destruct query as [|c q]; [congruence|]. monad.
  destruct (net (SearchRoute.upstream_url (String c q))) as [e|r]; cbn in *.
  - split; [reflexivity | now exists e].
  - destruct Hfail as [Hok | [e He]].
    + rewrite Hok. cbn. split; [reflexivity | eexists; reflexivity].
    + destruct (ok r); cbn; [rewrite He; cbn|];
        (split; [reflexivity | eexists; reflexivity]).
Qed.

(** X3. Every upstream failure of the search proxy (transport failure,
    a status outside 200..299, a body that is not JSON) is answered by
    the same 500 response, which carries nothing of the upstream error;
    the error goes to the console, once. *)
Theorem search_proxy_hides_upstream_failure net request query l :
  lookup "q" (SearchRoute.searchParams request) = Some query ->
  query <> "" ->
  upstream_failed (net (SearchRoute.upstream_url query)) ->
  fst (SearchRoute.GET net request l)
  = Returned (mkResponse 500 (error_body "Failed to search for music"))
  /\ exists e, console (snd (SearchRoute.GET net request l))
               = (console l ++ [("Music search API error:", e)])%list.
Proof. exact (search_GET_failure net request query l). Qed.

Lemma search_proxy_hides_upstream_failure_witness :
  fst (SearchRoute.GET (fun _ => Responded (mkHttp 429 (inr (JStr "quota"))))
         (SearchRoute.mkRequest [("q", "abba")]) quiet)
  = Returned (mkResponse 500 (error_body "Failed to search for music")).
Proof.
  apply (search_proxy_hides_upstream_failure
           (fun _ => Responded (mkHttp 429 (inr (JStr "quota"))))
           (SearchRoute.mkRequest [("q", "abba")]) "abba" quiet).
  - reflexivity.
  - discriminate.
  - left. reflexivity.
Defined.

Lemma search_GET_success net request query l r d :
  lookup "q" (SearchRoute.searchParams request) = Some query ->
  query <> "" ->
  net (SearchRoute.upstream_url query) = Responded r ->
  ok r = true ->
  body r = inr d ->
  fst (SearchRoute.GET net request l) = Returned (mkResponse 200 d).
Proof.
  intros Hq Hne Hnet Hok Hbody. unfold SearchRoute.GET. rewrite Hq.
  destruct query as [|c q]; [congruence|]. monad.
  rewrite Hnet. cbn. rewrite Hok. cbn. rewrite Hbody. reflexivity.
Qed.

(** *** Discovery proxy *)

Lemma at_index_In {A} (xs : list A) i x :
  RandomRoute.at_index xs i = Some x -> In x xs.
Proof.
  unfold RandomRoute.at_index. destruct (i <? 0)%Z; [discriminate|].
  apply nth_error_In.
Qed.

Lemma at_index_in_range {A} (xs : list A) r :
  unit_interval r -> xs <> [] ->
  exists x, RandomRoute.at_index xs (RandomRoute.random_index r (length xs)) = Some x.
Proof.
  intros [H0 H1] Hne.
  assert (Hn : (0 < length xs)%nat) by (destruct xs; [congruence | cbn; lia]).
  destruct (RandomRouteFacts.random_index_in_range r (length xs) H0 H1 Hn) as [Ha Hb].
  unfold RandomRoute.at_index.
  destruct (Z.ltb_spec (RandomRoute.random_index r (length xs)) 0); [lia|].
  destruct (nth_error xs (Z.to_nat (RandomRoute.random_index r (length xs)))) eqn:E;
    [eauto|].
  apply nth_error_None in E. lia.
Qed.

(** X4. The discovery proxy issues exactly one upstream request on every
    invocation, and for a draw in [0, 1) that request asks for one of
    the ten mood phrases, with limit 50. *)
Theorem discovery_proxy_one_mood_request net random l :
  requests (snd (RandomRoute.GET net random l))
  = (requests l ++ [RandomRoute.mood_url random l])%list
  /\ (unit_interval (random (draws l)) ->
      exists phrase, In phrase RandomRoute.MOOD_QUERIES
        /\ RandomRoute.mood_url random l
           = "https://api.deezer.com/search?q=" ++ encodeURIComponent phrase ++ "&limit=50").
Proof.
  split.
  - unfold RandomRoute.GET, RandomRoute.mood_url. monad. cbn [draws requests console].
    destruct (net _) as [e|r]; cbn -[member]; [reflexivity|].
    destruct (ok r); cbn -[member]; [|reflexivity].
    destruct (body r) as [e|d]; cbn -[member]; [reflexivity|].
    destruct (member (Some d) "data") as [e|[[|b|q|s|items|m]|]]; cbn -[member]; try reflexivity.
    + destruct (String.eqb s ""); reflexivity.
    + destruct items; reflexivity.
  - intros Hr. unfold RandomRoute.mood_url.
    destruct (at_index_in_range RandomRoute.MOOD_QUERIES _ Hr) as [phrase Hp];
      [discriminate|].
    exists phrase. split; [eapply at_index_In; exact Hp|].
    rewrite Hp. reflexivity.
Qed.

Lemma discovery_proxy_one_mood_request_witness :
  exists phrase, In phrase RandomRoute.MOOD_QUERIES
    /\ RandomRoute.mood_url (fun _ => 7 # 10) quiet
       = "https://api.deezer.com/search?q=" ++ encodeURIComponent phrase ++ "&limit=50".
Proof.
  apply (discovery_proxy_one_mood_request (always_ok JNull) (fun _ => 7 # 10) quiet).
  split; [now apply Qle_bool_iff | reflexivity].
Defined.

(** X5. The discovery proxy never throws past its boundary: whatever
    the upstream does (transport failure, error status, a body that is
    not JSON, or an accepted payload whose [data] member is a list, a
    number, a boolean, [null], the empty string or missing), it
    returns a response, and its status is 200 or 500. *)
Theorem discovery_proxy_never_throws net random l :
  (forall r d, net (RandomRoute.mood_url random l) = Responded r ->
               ok r = true -> body r = inr d ->
               RandomRoute.data_followed d = true) ->
  exists r,
    fst (RandomRoute.GET net random l) = Returned r
    /\ (resp_status r = 200%Z \/ resp_status r = 500%Z).
Proof.
  intros Hmod. unfold RandomRoute.GET, RandomRoute.mood_url in *. monad.
  cbn [draws requests console].
  destruct (net _) as [e|r]; cbn -[member]; [eexists; split; [reflexivity | auto]|].
  destruct (ok r) eqn:Hok; cbn -[member]; [|eexists; split; [reflexivity | auto]].
  destruct (body r) as [e|d] eqn:Hb; cbn -[member];
    [eexists; split; [reflexivity | auto]|].
  specialize (Hmod r d eq_refl Hok Hb).
  unfold RandomRoute.data_followed in Hmod.
  destruct (member (Some d) "data") as [e|[[|b|q|s|items|m]|]]; cbn -[member];
    try (eexists; split; [reflexivity | auto]); try discriminate.
  - rewrite Hmod. eexists; split; [reflexivity | auto].
  - destruct items; cbn; eexists; split; try reflexivity; auto.
Qed.

Lemma discovery_proxy_never_throws_witness :
  exists r,
    fst (RandomRoute.GET (always_ok (JObj [("data", JNum 5)])) (fun _ => 0) quiet)
    = Returned r
    /\ (resp_status r = 200%Z \/ resp_status r = 500%Z).
Proof.
  apply (discovery_proxy_never_throws (always_ok (JObj [("data", JNum 5)]))
           (fun _ => 0) quiet).
  intros r d H _ Hb. injection H as <-. injection Hb as <-. reflexivity.
Defined.

(** X6. Whatever the draws in [0, 1), a successful discovery answers
    with at most one track, and that track is one of the upstream
    results: it is never made up and never [null]. *)
Theorem discovery_proxy_returns_upstream_track net random l r members items :
  net (RandomRoute.mood_url random l) = Responded r ->
  ok r = true ->
  body r = inr (JObj members) ->
  lookup "data" members = Some (JArr items) ->
  unit_interval (random (S (draws l))) ->
  items <> [] ->
  exists track,
    In track items
    /\ fst (RandomRoute.GET net random l)
       = Returned (mkResponse 200 (JObj [("data", JArr [track])])).
Proof.
  intros Hnet Hok Hbody Hdata Hr Hne.
  rewrite (RandomRouteFacts.GET_on_list net random l r members items Hnet Hok Hbody Hdata).
  destruct (at_index_in_range items _ Hr Hne) as [track Ht].
  exists track. split; [eapply at_index_In; exact Ht|].
  destruct items as [|t items]; [congruence|].
  rewrite Ht. reflexivity.
Qed.

Lemma discovery_proxy_returns_upstream_track_witness :
  exists track,
    In track Samples.tracks3
    /\ fst (RandomRoute.GET (always_ok (JObj [("data", JArr Samples.tracks3)]))
              (fun _ => 9 # 10) quiet)
       = Returned (mkResponse 200 (JObj [("data", JArr [track])])).
Proof.
  apply (discovery_proxy_returns_upstream_track
           (always_ok (JObj [("data", JArr Samples.tracks3)])) (fun _ => 9 # 10) quiet
           (mkHttp 200 (inr (JObj [("data", JArr Samples.tracks3)])))
           [("data", JArr Samples.tracks3)] Samples.tracks3);
    try reflexivity.
  - split; [now apply Qle_bool_iff | reflexivity].
  - discriminate.
Defined.

Lemma random_GET_failure net random l :
  upstream_failed (net (RandomRoute.mood_url random l)) ->
  fst (RandomRoute.GET net random l)
  = Returned (mkResponse 500 (error_body "Failed to get random music"))
  /\ draws (snd (RandomRoute.GET net random l)) = S (draws l)
  /\ exists e, console (snd (RandomRoute.GET net random l))
               = (console l ++ [("Random music API error:", e)])%list.
Proof.
  intros Hfail. unfold RandomRoute.GET, RandomRoute.mood_url in *. monad.
  cbn [draws requests console].
  destruct (net _) as [e|r]; cbn in *.
  - repeat split. now exists e.
  - destruct Hfail as [Hok | [e He]].
    + rewrite Hok. cbn. repeat split. eexists; reflexivity.
    + destruct (ok r); cbn; [rewrite He; cbn|]; repeat split; eexists; reflexivity.
Qed.

(** X7. Every upstream failure of the discovery proxy is answered by the
    same 500 response, after one draw and one request, and no track is
    drawn. *)
Theorem discovery_proxy_hides_upstream_failure net random l :
  upstream_failed (net (RandomRoute.mood_url random l)) ->
  fst (RandomRoute.GET net random l)
  = Returned (mkResponse 500 (error_body "Failed to get random music"))
  /\ draws (snd (RandomRoute.GET net random l)) = S (draws l)
  /\ exists e, console (snd (RandomRoute.GET net random l))
               = (console l ++ [("Random music API error:", e)])%list.
Proof. exact (random_GET_failure net random l). Qed.

Lemma discovery_proxy_hides_upstream_failure_witness :
  fst (RandomRoute.GET (fun _ => Rejected (Error "fetch failed")) (fun _ => 0) quiet)
  = Returned (mkResponse 500 (error_body "Failed to get random music")).
Proof.
  apply (discovery_proxy_hides_upstream_failure
           (fun _ => Rejected (Error "fetch failed")) (fun _ => 0) quiet).
  exact I.
Defined.

End ProxyFacts.

(* ================================================================== *)
(** ** encodeURIComponent *)

Module EncodingFacts.
Import Wire.

Lemma hex_digit_unreserved k : (k < 16)%nat -> unreserved (hex_digit k) = true.
Proof.
  intros H. do 16 (destruct k as [|k]; [reflexivity|]). lia.
Qed.

Lemma hex_digit_inj j k : (j < 16)%nat -> (k < 16)%nat -> hex_digit j = hex_digit k -> j = k.
Proof.
  intros Hj Hk.
  do 16 (destruct j as [|j]; [do 16 (destruct k as [|k]; [cbv; congruence|]); lia|]).
  lia.
Qed.

Lemma byte_split c : (nat_of_ascii c / 16 < 16)%nat /\ (nat_of_ascii c mod 16 < 16)%nat.
Proof.
  pose proof (nat_ascii_bounded c) as Hb. split.
  - apply Nat.Div0.div_lt_upper_bound. lia.
  - apply Nat.mod_upper_bound. lia.
Qed.

Lemma percent_reserved : unreserved "%" = false.
Proof. reflexivity. Qed.

Lemma encoded_chars_safe s :
  Forall (fun c => url_safe c = true) (list_ascii_of_string (encodeURIComponent s)).
Proof.
  induction s as [|a s IH]; cbn [encodeURIComponent list_ascii_of_string];
    [constructor|].
  destruct (unreserved a) eqn:Ha; cbn [list_ascii_of_string].
  - constructor; [unfold url_safe; now rewrite Ha | exact IH].
  - destruct (byte_split a) as [H1 H2].
    repeat constructor; try exact IH; unfold url_safe;
      now rewrite hex_digit_unreserved.
Qed.

Lemma occurrences_app c a b :
  occurrences c (a ++ b) = (occurrences c a + occurrences c b)%nat.
Proof.
  induction a as [|x a IH]; cbn [String.append occurrences]; [reflexivity|].
  rewrite IH. lia.
Qed.

Lemma occurrences_In c s :
  ~ In c (list_ascii_of_string s) -> occurrences c s = 0%nat.
Proof.
  induction s as [|a s IH]; cbn [occurrences list_ascii_of_string]; [reflexivity|].
  intros H. destruct (Ascii.eqb_spec c a) as [->|_].
  - exfalso. apply H. now left.
  - rewrite IH; [reflexivity|]. intros Hin. apply H. now right.
Qed.

(** No separator occurs in an encoded component. *)
Lemma occurrences_encoded c s :
  url_safe c = false -> occurrences c (encodeURIComponent s) = 0%nat.
Proof.
  intros Hc. apply occurrences_In. intros Hin.
  pose proof (encoded_chars_safe s) as Hall.
  rewrite Forall_forall in Hall. specialize (Hall c Hin). congruence.
Qed.

Lemma occurrences_encode c q :
  url_safe c = false -> occurrences c (RandomRoute.encode q) = 0%nat.
Proof.
  intros Hc. destruct q as [q|]; cbn [RandomRoute.encode].
  - now apply occurrences_encoded.
  - apply occurrences_In. intros Hin. cbn in Hin.
    repeat (destruct Hin as [<- | Hin]; [discriminate Hc|]). exact Hin.
Qed.

(** X8. A query cannot alter the shape of the URLs the code builds
    around it. Whatever the query, the upstream URL of either proxy has
    exactly one [?], one [&] (before [limit]) and two [=], and the
    client's URL of the search proxy exactly one [?], one [=] and no
    [&]; none of them contains [#] or a space. *)
Theorem query_cannot_alter_url query randomQuery :
  (occurrences "?" (SearchRoute.upstream_url query) = 1
   /\ occurrences "&" (SearchRoute.upstream_url query) = 1
   /\ occurrences "=" (SearchRoute.upstream_url query) = 2
   /\ occurrences "#" (SearchRoute.upstream_url query) = 0
   /\ occurrences " " (SearchRoute.upstream_url query) = 0)%nat
  /\ (occurrences "?" (RandomRoute.upstream_url randomQuery) = 1
      /\ occurrences "&" (RandomRoute.upstream_url randomQuery) = 1
      /\ occurrences "=" (RandomRoute.upstream_url randomQuery) = 2
      /\ occurrences "#" (RandomRoute.upstream_url randomQuery) = 0
      /\ occurrences " " (RandomRoute.upstream_url randomQuery) = 0)%nat
  /\ (occurrences "?" (MusicData.search_url query) = 1
      /\ occurrences "&" (MusicData.search_url query) = 0
      /\ occurrences "=" (MusicData.search_url query) = 1
      /\ occurrences "#" (MusicData.search_url query) = 0
      /\ occurrences " " (MusicData.search_url query) = 0)%nat.
Proof.
  unfold SearchRoute.upstream_url, RandomRoute.upstream_url, MusicData.search_url.
  repeat split; rewrite ?occurrences_app;
    rewrite ?occurrences_encoded, ?occurrences_encode by reflexivity; reflexivity.
Qed.

Lemma encode_inj s1 s2 :
  encodeURIComponent s1 = encodeURIComponent s2 -> s1 = s2.
Proof.
  revert s2. induction s1 as [|a s1 IH]; intros [|b s2]; cbn [encodeURIComponent].
  - reflexivity.
  - destruct (unreserved b); discriminate.
  - destruct (unreserved a); discriminate.
  - destruct (unreserved a) eqn:Ha, (unreserved b) eqn:Hb; intros H.
    + injection H as -> H. f_equal. now apply IH.
    + injection H as -> _. rewrite percent_reserved in Ha. discriminate.
    + injection H as <- _. rewrite percent_reserved in Hb. discriminate.
    + injection H as Hhi Hlo H.
      destruct (byte_split a) as [A1 A2], (byte_split b) as [B1 B2].
      assert (Ehi : (nat_of_ascii a / 16 = nat_of_ascii b / 16)%nat)
        by (apply hex_digit_inj; assumption).
      assert (Elo : (nat_of_ascii a mod 16 = nat_of_ascii b mod 16)%nat)
        by (apply hex_digit_inj; assumption).
      assert (Hn : nat_of_ascii a = nat_of_ascii b).
      { pose proof (Nat.div_mod_eq (nat_of_ascii a) 16) as Da.
        pose proof (Nat.div_mod_eq (nat_of_ascii b) 16) as Db.
        rewrite Ehi, Elo in Da. congruence. }
      f_equal; [|now apply IH].
      rewrite <- (ascii_nat_embedding a), <- (ascii_nat_embedding b). now rewrite Hn.
Qed.

Lemma append_inv_tail (a b t : string) : a ++ t = b ++ t -> a = b.
Proof.
  intros H.
  apply (f_equal list_ascii_of_string) in H.
  rewrite <- (string_of_list_ascii_of_string a), <- (string_of_list_ascii_of_string b).
  f_equal. revert H.
  assert (Happ : forall x y, list_ascii_of_string (x ++ y)
                             = (list_ascii_of_string x ++ list_ascii_of_string y)%list).
  { induction x as [|c x IH]; intros y; cbn; [reflexivity | now rewrite IH]. }
  rewrite !Happ. apply app_inv_tail.
Qed.

(** X9. The URLs the code builds lose nothing of the query: two queries
    for which the search proxy builds the same upstream URL, or the
    client the same proxy URL, are the same query. *)
Theorem request_urls_injective q1 q2 :
  (SearchRoute.upstream_url q1 = SearchRoute.upstream_url q2 -> q1 = q2)
  /\ (MusicData.search_url q1 = MusicData.search_url q2 -> q1 = q2).
Proof.
  split; intros H.
  - unfold SearchRoute.upstream_url in H. cbn [String.append] in H.
    repeat (injection H as H).
    now apply encode_inj, (append_inv_tail _ _ "&limit=10").
  - unfold MusicData.search_url in H. cbn [String.append] in H.
    repeat (injection H as H).
    now apply encode_inj.
Qed.

Lemma request_urls_injective_witness : "daft punk" = "daft punk".
Proof.
  apply (proj1 (request_urls_injective "daft punk" "daft punk")). reflexivity.
Defined.

End EncodingFacts.

(* ================================================================== *)
(** ** Track fetch client and agent tools: errors, edges, composition *)

Module ClientMoreFacts.
Import Wire MusicData Tambo.

Ltac monad :=
  unfold try_catch, bind, fetch, Math_random, console_error, lift, ret, throw,
    unmodelled, NextResponse_json.

Lemma searchMusic_not_ok net query l r :
  net (search_url query) = Responded r -> ok r = false ->
  searchMusic net query l
  = (Thrown (Error ("API error: " ++ string_of_Z (status r))),
     logged l (search_url query)
       [("Error searching music:", Error ("API error: " ++ string_of_Z (status r)))]).
Proof.
  intros Hnet Hok. unfold searchMusic. monad. rewrite Hnet. cbn. rewrite Hok. reflexivity.
Qed.

Lemma getRandomSong_not_ok net l r :
  net random_url = Responded r -> ok r = false ->
  getRandomSong net l
  = (Thrown (Error ("API error: " ++ string_of_Z (status r))),
     logged l random_url
       [("Error getting random song:", Error ("API error: " ++ string_of_Z (status r)))]).
Proof.
  intros Hnet Hok. unfold getRandomSong. monad. rewrite Hnet. cbn. rewrite Hok. reflexivity.
Qed.

(** X10. On a response whose status is not in 200..299 both client
    functions raise ["API error: <status>"] without reading the body:
    the message a proxy puts in its 400 or 500 payload is never the
    one raised. The error is logged once and rethrown unchanged. *)
Theorem client_reports_status_not_payload net query l r :
  ok r = false ->
  (net (search_url query) = Responded r ->
   searchMusic net query l
   = (Thrown (Error ("API error: " ++ string_of_Z (status r))),
      logged l (search_url query)
        [("Error searching music:", Error ("API error: " ++ string_of_Z (status r)))]))
  /\ (net random_url = Responded r ->
      getRandomSong net l
      = (Thrown (Error ("API error: " ++ string_of_Z (status r))),
         logged l random_url
           [("Error getting random song:", Error ("API error: " ++ string_of_Z (status r)))])).
Proof.
  intros Hok. split; intros Hnet.
  - now apply searchMusic_not_ok.
  - now apply getRandomSong_not_ok.
Qed.

Lemma client_reports_status_not_payload_witness :
  fst (searchMusic (fun _ => Responded (mkHttp 500 (inr (error_body "Failed to search for music"))))
         "abba" quiet)
  = Thrown (Error "API error: 500").
Proof.
  destruct (client_reports_status_not_payload
              (fun _ => Responded (mkHttp 500 (inr (error_body "Failed to search for music"))))
              "abba" quiet (mkHttp 500 (inr (error_body "Failed to search for music"))))
    as [H _]; [reflexivity|].
  rewrite H; reflexivity.
Defined.

(** Once the status is accepted, only the body matters. *)
Lemma searchMusic_reads_body net query l r d :
  net (search_url query) = Responded r -> ok r = true -> body r = inr d ->
  searchMusic net query l = searchMusic (always_ok d) query l.
Proof.
  intros Hnet Hok Hbody. unfold searchMusic, always_ok. monad.
  rewrite Hnet. cbn -[member toString]. rewrite Hok, Hbody. reflexivity.
Qed.

Lemma getRandomSong_reads_body net l r d :
  net random_url = Responded r -> ok r = true -> body r = inr d ->
  getRandomSong net l = getRandomSong (always_ok d) l.
Proof.
  intros Hnet Hok Hbody. unfold getRandomSong, always_ok. monad.
  rewrite Hnet. cbn -[member toString first_of]. rewrite Hok, Hbody. reflexivity.
Qed.

Lemma searchMusic_error_member query l members v msg :
  lookup "error" members = Some v -> truthy (Some v) = true ->
  toString v = Some (inr msg) \/ toString v = Some (inl (Error msg)) ->
  searchMusic (always_ok (JObj members)) query l
  = (Thrown (Error msg), logged l (search_url query) [("Error searching music:", Error msg)]).
Proof.
  intros Hl Ht Hs. unfold searchMusic, always_ok. monad. cbn -[toString truthy].
  rewrite Hl, Ht. destruct Hs as [-> | ->]; reflexivity.
Qed.

(** X11. A truthy [error] member in an accepted payload makes
    searchMusic raise an error made from it and ignore [data]: a string
    is raised as it is; an error object, such as the gateway sends with
    status 200, is raised as the text "[object Object]", unless it has
    a member named toString, in which case building the error fails
    with a TypeError and that is what is raised. *)
Theorem searchMusic_raises_payload_error net query l r members v :
  net (search_url query) = Responded r -> ok r = true ->
  body r = inr (JObj members) ->
  lookup "error" members = Some v ->
  (forall s, v = JStr s -> s <> "" -> fst (searchMusic net query l) = Thrown (Error s))
  /\ (forall m, v = JObj m -> lookup "toString" m = None ->
      fst (searchMusic net query l) = Thrown (Error "[object Object]"))
  /\ (forall m, v = JObj m -> lookup "toString" m <> None ->
      fst (searchMusic net query l)
      = Thrown (Error "Cannot convert object to primitive value")).
Proof.
  intros Hnet Hok Hbody Hl.
  rewrite (searchMusic_reads_body net query l r _ Hnet Hok Hbody).
  repeat split.
  - intros s -> Hs.
    rewrite (searchMusic_error_member query l members (JStr s) s Hl);
      [reflexivity | | left; reflexivity].
    cbn. destruct (String.eqb_spec s ""); [congruence | reflexivity].
  - intros m -> Hm.
    rewrite (searchMusic_error_member query l members (JObj m) "[object Object]" Hl);
      [reflexivity | reflexivity | left; cbn; now rewrite Hm].
  - intros m -> Hm.
    rewrite (searchMusic_error_member query l members (JObj m)
               "Cannot convert object to primitive value" Hl);
      [reflexivity | reflexivity | right; cbn].
    destruct (lookup "toString" m); [reflexivity | congruence].
Qed.

Lemma searchMusic_raises_payload_error_witness :
  fst (searchMusic
         (always_ok (JObj [("error", JObj [("type", JStr "Exception"); ("code", JNum 4)])]))
         "abba" quiet)
  = Thrown (Error "[object Object]")
  /\ fst (searchMusic (always_ok (JObj [("error", JObj [("toString", JStr "x")])]))
            "abba" quiet)
     = Thrown (Error "Cannot convert object to primitive value").
Proof.
  split.
  - refine (proj1 (proj2 (searchMusic_raises_payload_error
              (always_ok (JObj [("error", JObj [("type", JStr "Exception"); ("code", JNum 4)])]))
              "abba" quiet
              (mkHttp 200 (inr (JObj [("error", JObj [("type", JStr "Exception");
                                                    ("code", JNum 4)])])))
              [("error", JObj [("type", JStr "Exception"); ("code", JNum 4)])]
              (JObj [("type", JStr "Exception"); ("code", JNum 4)]) _ _ _ _)) _ _ _);
      reflexivity.
  - refine (proj2 (proj2 (searchMusic_raises_payload_error
              (always_ok (JObj [("error", JObj [("toString", JStr "x")])]))
              "abba" quiet
              (mkHttp 200 (inr (JObj [("error", JObj [("toString", JStr "x")])])))
              [("error", JObj [("toString", JStr "x")])]
              (JObj [("toString", JStr "x")]) _ _ _ _)) _ _ _);
      try reflexivity.
    discriminate.
Defined.

Lemma searchMusic_list query l members items :
  truthy (lookup "error" members) = false ->
  lookup "data" members = Some (JArr items) ->
  searchMusic (always_ok (JObj members)) query l
  = (Returned (JArr items), logged l (search_url query) []).
Proof.
  intros He Hd. unfold searchMusic, always_ok, logged. monad. cbn -[truthy].
  rewrite app_nil_r.
  destruct (lookup "error" members) as [v|]; [rewrite He|]; cbn -[truthy];
    rewrite Hd; reflexivity.
Qed.

(** X12. On an accepted payload without error, searchMusic returns the
    result list exactly as received, whatever its length and elements,
    after one request and without writing to the console. *)
Theorem searchMusic_returns_list_unchanged net query l r members items :
  net (search_url query) = Responded r -> ok r = true ->
  body r = inr (JObj members) ->
  truthy (lookup "error" members) = false ->
  lookup "data" members = Some (JArr items) ->
  searchMusic net query l
  = (Returned (JArr items),
     mkLog (requests l ++ [search_url query]) (draws l) (console l)).
Proof.
  intros Hnet Hok Hbody He Hd.
  rewrite (searchMusic_reads_body net query l r _ Hnet Hok Hbody).
  rewrite (searchMusic_list query l members items He Hd).
  unfold logged. now rewrite app_nil_r.
Qed.

Lemma searchMusic_returns_list_unchanged_witness :
  fst (searchMusic (always_ok (JObj [("data", JArr Samples.tracks3)])) "abba" quiet)
  = Returned (JArr Samples.tracks3).
Proof.
  rewrite (searchMusic_returns_list_unchanged
             (always_ok (JObj [("data", JArr Samples.tracks3)])) "abba" quiet
             (mkHttp 200 (inr (JObj [("data", JArr Samples.tracks3)])))
             [("data", JArr Samples.tracks3)] Samples.tracks3);
    reflexivity.
Defined.

(** *** The client behind its proxy *)

(** X13. The search client composed with the search proxy. An empty
    query comes back as "API error: 400" and an upstream failure as
    "API error: 500": the proxy's own messages do not surface. When the
    upstream succeeds, the client behaves exactly as if it had received
    the upstream payload directly. *)
Theorem search_through_proxy upstream query backend l :
  search_backend upstream query = Some backend ->
  (query = "" -> fst (searchMusic backend query l) = Thrown (Error "API error: 400"))
  /\ (query <> "" -> upstream_failed (upstream (SearchRoute.upstream_url query)) ->
      fst (searchMusic backend query l) = Thrown (Error "API error: 500"))
  /\ (query <> "" -> forall r d,
        upstream (SearchRoute.upstream_url query) = Responded r ->
        ok r = true -> body r = inr d ->
        searchMusic backend query l = searchMusic (always_ok d) query l).
Proof.
  unfold search_backend. intros Hb. repeat split.
  - intros ->.
    rewrite ProxyFacts.search_GET_missing in Hb by (right; reflexivity).
    injection Hb as <-.
    now erewrite searchMusic_not_ok by reflexivity.
  - intros Hq Hfail.
    destruct (ProxyFacts.search_GET_failure upstream
                (SearchRoute.mkRequest [("q", query)]) query quiet eq_refl Hq Hfail)
      as [Hr _].
    rewrite Hr in Hb. injection Hb as <-.
    now erewrite searchMusic_not_ok by reflexivity.
  - intros Hq r d Hnet Hok Hbody.
    rewrite (ProxyFacts.search_GET_success upstream
               (SearchRoute.mkRequest [("q", query)]) query quiet r d
               eq_refl Hq Hnet Hok Hbody) in Hb.
    injection Hb as <-.
    now apply (searchMusic_reads_body _ query l (mkHttp 200 (inr d)) d).
Qed.

Lemma search_through_proxy_witness :
  fst (searchMusic (fun _ => served (mkResponse 500 (error_body "Failed to search for music")))
         "abba" quiet)
  = Thrown (Error "API error: 500").
Proof.
  refine (proj1 (proj2 (search_through_proxy
            (fun _ => Rejected (Error "fetch failed")) "abba"
            (fun _ => served (mkResponse 500 (error_body "Failed to search for music")))
            quiet _)) _ _).
  - reflexivity.
  - discriminate.
  - exact I.
Defined.

Lemma getRandomSong_single l track :
  getRandomSong (always_ok (JObj [("data", JArr [track])])) l
  = (Returned (if truthy (Some track) then track else JNull), logged l random_url []).
Proof.
  unfold getRandomSong, always_ok, logged. monad. cbn -[truthy].
  now rewrite app_nil_r.
Qed.

Lemma getRandomSong_none l :
  getRandomSong (always_ok (JObj [("data", JArr [])])) l
  = (Returned JNull, logged l random_url []).
Proof.
  unfold getRandomSong, always_ok, logged. monad. cbn. now rewrite app_nil_r.
Qed.

(** X14. getRandomSong composed with the discovery proxy: an upstream
    failure comes back as "API error: 500"; an empty upstream list gives
    [null]; otherwise the result is one of the upstream tracks, or
    [null] when the track drawn is a falsy value. *)
Theorem random_song_through_proxy upstream random backend l :
  random_backend upstream random = Some backend ->
  (upstream_failed (upstream (RandomRoute.mood_url random quiet)) ->
   fst (getRandomSong backend l) = Thrown (Error "API error: 500"))
  /\ (forall r members items,
        upstream (RandomRoute.mood_url random quiet) = Responded r ->
        ok r = true -> body r = inr (JObj members) ->
        lookup "data" members = Some (JArr items) ->
        unit_interval (random 1%nat) ->
        (items = [] -> fst (getRandomSong backend l) = Returned JNull)
        /\ (items <> [] ->
            exists track, In track items
              /\ fst (getRandomSong backend l)
                 = Returned (if truthy (Some track) then track else JNull))).
Proof.
  unfold random_backend. intros Hb. split.
  - intros Hfail.
    destruct (ProxyFacts.random_GET_failure upstream random quiet Hfail) as [Hr _].
    rewrite Hr in Hb. injection Hb as <-.
    now erewrite getRandomSong_not_ok by reflexivity.
  - intros r members items Hnet Hok Hbody Hdata Hrand.
    rewrite (RandomRouteFacts.GET_on_list upstream random quiet r members items
               Hnet Hok Hbody Hdata) in Hb.
    split.
    + intros ->. injection Hb as <-.
      rewrite (getRandomSong_reads_body _ l (mkHttp 200 (inr (JObj [("data", JArr [])])))
                 (JObj [("data", JArr [])])) by reflexivity.
      now rewrite getRandomSong_none.
    + intros Hne.
      destruct (ProxyFacts.at_index_in_range items _ Hrand Hne) as [track Ht].
      exists track. split; [eapply ProxyFacts.at_index_In; exact Ht|].
      destruct items as [|t items]; [congruence|].
      cbn [draws quiet] in Hb. rewrite Ht in Hb. injection Hb as <-.
      rewrite (getRandomSong_reads_body _ l
                 (mkHttp 200 (inr (JObj [("data", JArr [track])])))
                 (JObj [("data", JArr [track])])) by reflexivity.
      now rewrite getRandomSong_single.
Qed.

Lemma random_song_through_proxy_witness :
  fst (getRandomSong (fun _ => served (mkResponse 500 (error_body "Failed to get random music")))
         quiet)
  = Thrown (Error "API error: 500").
Proof.
  refine (proj1 (random_song_through_proxy
            (fun _ => Rejected (Error "fetch failed")) (fun _ => 0)
            (fun _ => served (mkResponse 500 (error_body "Failed to get random music")))
            quiet _) _).
  - reflexivity.
  - exact I.
Defined.

End ClientMoreFacts.

(* ================================================================== *)
(** ** Agent tools: errors and edges *)

Module ToolFacts.
Import Wire MusicData Tambo.

Ltac monad :=
  unfold try_catch, bind, fetch, Math_random, console_error, lift, ret, throw,
    unmodelled, NextResponse_json.

(** X15. Called without a query, with a non-string query or with the
    empty string, the searchMusic tool raises "Invalid search query
    provided" and sends no request. *)
Theorem searchMusic_tool_rejects_invalid_query net args l :
  (forall q, query args = Some (JStr q) -> q = "") ->
  searchMusic_tool net args l
  = (Thrown (Error "Invalid search query provided"),
     mkLog (requests l) (draws l)
           (console l ++ [("Error in searchMusic tool:",
                           Error "Invalid search query provided")])).
Proof.
  intros H. unfold searchMusic_tool.
  destruct (query args) as [[| | |q| |]|]; try reflexivity.
  rewrite (H q eq_refl). reflexivity.
Qed.

Lemma searchMusic_tool_rejects_invalid_query_witness :
  fst (searchMusic_tool (always_ok JNull) (mkArgs (Some (JNum 42))) quiet)
  = Thrown (Error "Invalid search query provided").
Proof.
  rewrite (searchMusic_tool_rejects_invalid_query (always_ok JNull)
             (mkArgs (Some (JNum 42))) quiet); [reflexivity|].
  intros q H. discriminate H.
Defined.

(** X16. Whatever error searchMusic raises, the tool raises an error
    with the same message, after logging it a second time under its own
    label. *)
Theorem searchMusic_tool_rethrows net q l e l' :
  q <> "" ->
  searchMusic net q l = (Thrown e, l') ->
  searchMusic_tool net (mkArgs (Some (JStr q))) l
  = (Thrown e,
     mkLog (requests l') (draws l') (console l' ++ [("Error in searchMusic tool:", e)])).
Proof.
  intros Hq Hs. unfold searchMusic_tool. cbn [query].
  destruct (String.eqb_spec q ""); [congruence|].
  monad. rewrite Hs. destruct e. reflexivity.
Qed.

Lemma searchMusic_tool_rethrows_witness :
  fst (searchMusic_tool (fun _ => Responded (mkHttp 500 (inr JNull)))
         (mkArgs (Some (JStr "abba"))) quiet)
  = Thrown (Error "API error: 500").
Proof.
  erewrite (searchMusic_tool_rethrows (fun _ => Responded (mkHttp 500 (inr JNull)))
              "abba" quiet (Error "API error: 500")).
  - reflexivity.
  - discriminate.
  - reflexivity.
Defined.

Lemma card_of_object tm am bm l :
  lookup "artist" tm = Some (JObj am) ->
  lookup "album" tm = Some (JObj bm) ->
  card_of (Some (JObj tm)) l
  = (Returned (mkPayload (lookup "id" tm) (lookup "title" tm) (lookup "name" am)
                         (lookup "title" bm) (lookup "duration" tm)
                         (lookup "preview" tm) (lookup "link" tm)
                         (lookup "picture_medium" am) (lookup "cover_medium" bm)
                         (lookup "rank" tm)), l).
Proof.
  intros Ha Hb. unfold card_of, member2, member. monad. rewrite Ha, Hb. reflexivity.
Qed.

Lemma card_of_without_artist tm l :
  lookup "artist" tm = None \/ lookup "artist" tm = Some JNull ->
  exists e, card_of (Some (JObj tm)) l = (Thrown e, l).
Proof.
  intros [Ha | Ha]; unfold card_of, member2, member; monad; rewrite Ha;
    eexists; reflexivity.
Qed.

Lemma tool_on_first_track net q l r members track rest :
  q <> "" ->
  net (search_url q) = Responded r -> ok r = true ->
  body r = inr (JObj members) ->
  truthy (lookup "error" members) = false ->
  lookup "data" members = Some (JArr (track :: rest)) ->
  searchMusic_tool net (mkArgs (Some (JStr q))) l
  = try_catch (card_of (Some track))
      (fun error => bind (console_error "Error in searchMusic tool:" error)
                         (fun _ => throw (Error (message error))))
      (logged l (search_url q) []).
Proof.
  intros Hq Hnet Hok Hbody He Hd. unfold searchMusic_tool. cbn [query].
  destruct (String.eqb_spec q ""); [congruence|].
  unfold try_catch at 1. unfold bind at 1.
  rewrite (ClientMoreFacts.searchMusic_reads_body net q l r _ Hnet Hok Hbody).
  rewrite (ClientMoreFacts.searchMusic_list q l members _ He Hd).
  reflexivity.
Qed.

(** X17. The searchMusic tool builds its card from the first result
    only: with a first track that has an artist and an album object, the
    card holds that track's members (a missing one stays undefined), and
    the rest of the list plays no part. *)
Theorem searchMusic_tool_uses_first_track net q l r members tm am bm rest :
  q <> "" ->
  net (search_url q) = Responded r -> ok r = true ->
  body r = inr (JObj members) ->
  truthy (lookup "error" members) = false ->
  lookup "data" members = Some (JArr (JObj tm :: rest)) ->
  lookup "artist" tm = Some (JObj am) ->
  lookup "album" tm = Some (JObj bm) ->
  fst (searchMusic_tool net (mkArgs (Some (JStr q))) l)
  = Returned (mkPayload (lookup "id" tm) (lookup "title" tm) (lookup "name" am)
                        (lookup "title" bm) (lookup "duration" tm)
                        (lookup "preview" tm) (lookup "link" tm)
                        (lookup "picture_medium" am) (lookup "cover_medium" bm)
                        (lookup "rank" tm)).
Proof.
  intros Hq Hnet Hok Hbody He Hd Ha Hb.
  rewrite (tool_on_first_track net q l r members _ rest Hq Hnet Hok Hbody He Hd).
  unfold try_catch. now rewrite (card_of_object tm am bm _ Ha Hb).
Qed.

Lemma searchMusic_tool_uses_first_track_witness :
  let t := [("id", JNum 3); ("title", JStr "T"); ("artist", JObj [("name", JStr "A")]);
            ("album", JObj [("title", JStr "L")])] in
  fst (searchMusic_tool (always_ok (JObj [("data", JArr [JObj t; JNull])]))
         (mkArgs (Some (JStr "abba"))) quiet)
  = Returned (mkPayload (Some (JNum 3)) (Some (JStr "T")) (Some (JStr "A"))
                        (Some (JStr "L")) None None None None None None).
Proof.
  intros t.
  rewrite (searchMusic_tool_uses_first_track
             (always_ok (JObj [("data", JArr [JObj t; JNull])])) "abba" quiet
             (mkHttp 200 (inr (JObj [("data", JArr [JObj t; JNull])])))
             [("data", JArr [JObj t; JNull])] t
             [("name", JStr "A")] [("title", JStr "L")] [JNull]);
    try reflexivity.
  discriminate.
Defined.

(** X18. A first result without an artist (absent or [null]) makes the
    searchMusic tool raise an error instead of returning a partial
    card. *)
Theorem searchMusic_tool_needs_artist net q l r members tm rest :
  q <> "" ->
  net (search_url q) = Responded r -> ok r = true ->
  body r = inr (JObj members) ->
  truthy (lookup "error" members) = false ->
  lookup "data" members = Some (JArr (JObj tm :: rest)) ->
  lookup "artist" tm = None \/ lookup "artist" tm = Some JNull ->
  exists e, fst (searchMusic_tool net (mkArgs (Some (JStr q))) l) = Thrown e.
Proof.
  intros Hq Hnet Hok Hbody He Hd Ha.
  rewrite (tool_on_first_track net q l r members _ rest Hq Hnet Hok Hbody He Hd).
  destruct (card_of_without_artist tm (logged l (search_url q) []) Ha) as [e Hc].
  unfold try_catch. rewrite Hc. monad. eexists. reflexivity.
Qed.

Lemma searchMusic_tool_needs_artist_witness :
  exists e,
    fst (searchMusic_tool (always_ok (JObj [("data", JArr [JObj [("title", JStr "T")]])]))
           (mkArgs (Some (JStr "abba"))) quiet) = Thrown e.
Proof.
  apply (searchMusic_tool_needs_artist
           (always_ok (JObj [("data", JArr [JObj [("title", JStr "T")]])])) "abba" quiet
           (mkHttp 200 (inr (JObj [("data", JArr [JObj [("title", JStr "T")]])])))
           [("data", JArr [JObj [("title", JStr "T")]])] [("title", JStr "T")] []);
    try reflexivity.
  - discriminate.
  - left. reflexivity.
Defined.

(** X19. The getRandomMusic tool behind the discovery proxy: when the
    upstream result list is empty the tool raises "No random music
    found", and when the upstream fails it raises "API error: 500". *)
Theorem getRandomMusic_tool_through_proxy upstream random backend l :
  random_backend upstream random = Some backend ->
  (upstream_failed (upstream (RandomRoute.mood_url random quiet)) ->
   fst (getRandomMusic_tool backend l) = Thrown (Error "API error: 500"))
  /\ (forall r members,
        upstream (RandomRoute.mood_url random quiet) = Responded r ->
        ok r = true -> body r = inr (JObj members) ->
        lookup "data" members = Some (JArr []) ->
        fst (getRandomMusic_tool backend l) = Thrown (Error "No random music found")).
Proof.
  unfold random_backend. intros Hb. split.
  - intros Hfail.
    destruct (ProxyFacts.random_GET_failure upstream random quiet Hfail) as [Hr _].
    rewrite Hr in Hb. injection Hb as <-.
    unfold getRandomMusic_tool. monad.
    now erewrite ClientMoreFacts.getRandomSong_not_ok by reflexivity.
  - intros r members Hnet Hok Hbody Hdata.
    rewrite (RandomRouteFacts.GET_on_list upstream random quiet r members []
               Hnet Hok Hbody Hdata) in Hb.
    injection Hb as <-.
    unfold getRandomMusic_tool. monad.
    rewrite (ClientMoreFacts.getRandomSong_reads_body _ l
               (mkHttp 200 (inr (JObj [("data", JArr [])]))) (JObj [("data", JArr [])]))
      by reflexivity.
    now rewrite ClientMoreFacts.getRandomSong_none.
Qed.

Lemma getRandomMusic_tool_through_proxy_witness :
  fst (getRandomMusic_tool (fun _ => served (mkResponse 200 (JObj [("data", JArr [])]))) quiet)
  = Thrown (Error "No random music found").
Proof.
  refine (proj2 (getRandomMusic_tool_through_proxy
            (always_ok (JObj [("data", JArr [])])) (fun _ => 0)
            (fun _ => served (mkResponse 200 (JObj [("data", JArr [])]))) quiet _)
            (mkHttp 200 (inr (JObj [("data", JArr [])]))) [("data", JArr [])] _ _ _ _);
    reflexivity.
Defined.

End ToolFacts.

(* ================================================================== *)
(** ** The wrapper of the card: skeleton and timeouts *)

Module WrapperFacts.
Import MusicCard.

Ltac bools :=
  repeat match goal with
         | b : bool |- _ => destruct b
         | w : Wrapper |- _ => destruct w
         | d : option (bool * bool * bool) |- _ => destruct d as [[[? ?] ?]|]
         end.

(** X20. The effects of the wrapper settle: after a render and the one
    render its state updates cause, a further render with the same
    props and stage changes nothing, whatever the state before. There
    is no render loop. *)
Theorem wrapper_effects_settle complete streaming m :
  commit complete streaming (settle complete streaming m) = settle complete streaming m.
Proof.
  destruct m as [w t1 t2 d]. bools; reflexivity.
Qed.

Lemma settle_shape c s c' s' m :
  wrapper_shape c s m -> wrapper_shape c' s' (settle c' s' m).
Proof.
  destruct m as [w t1 t2 d]. unfold wrapper_shape. cbn [hooks deps timer1 timer2].
  intros (Hd & Hs & Hi & H1 & H2). subst d t1 t2.
  destruct w as [show init]. cbn in *. subst show.
  destruct init; [specialize (Hi eq_refl); subst c|]; bools; cbn; intuition congruence.
Qed.

Lemma settle_unmounted c s : wrapper_shape c s (settle c s unmounted).
Proof. unfold wrapper_shape. bools; cbn; intuition congruence. Qed.

Lemma timeout_shape c s m e :
  e = Timeout1 \/ e = Timeout2 ->
  wrapper_shape c s m -> wrapper_shape c s (wrapper_step m e).
Proof.
  destruct m as [w t1 t2 d]. unfold wrapper_shape. cbn [hooks deps timer1 timer2].
  intros He (Hd & Hs & Hi & H1 & H2). subst d t1 t2.
  destruct w as [show init]. cbn in *. subst show.
  destruct init; [specialize (Hi eq_refl); subst c|];
    destruct He as [-> | ->]; bools; cbn; intuition congruence.
Qed.

Lemma run_shape es : forall props stage m,
  wrapper_shape (isComponentComplete props) (isStreaming_of stage) m ->
  wrapper_shape (isComponentComplete (fst (latest props stage es)))
                (isStreaming_of (snd (latest props stage es)))
                (fold_left wrapper_step es m).
Proof.
  induction es as [|e es IH]; intros props stage m Hm; [exact Hm|].
  destruct e as [props' stage'| |]; cbn [fold_left latest].
  - apply IH. cbn [wrapper_step]. eapply settle_shape, Hm.
  - apply IH. apply timeout_shape; auto.
  - apply IH. apply timeout_shape; auto.
Qed.

(** X21. At every point of the life of the wrapper, with [props] and
    [stage] those of its latest render: the skeleton is shown exactly
    while the card is not initialized; the card is initialized only
    with complete props; and a timeout is pending exactly while the
    props are complete, nothing streams and the card is not
    initialized. A change of props or stage before a timeout fires
    therefore cancels it. *)
Theorem wrapper_state_characterized props0 stage0 es :
  let m := wrapper_run props0 stage0 es in
  let props := fst (latest props0 stage0 es) in
  let stage := snd (latest props0 stage0 es) in
  wrapper_shape (isComponentComplete props) (isStreaming_of stage) m
  /\ forall s, MusicCardWithLoadingState props (hooks m) s
               = if hasBeenInitialized (hooks m) then MusicCardCore props s else Skeleton.
Proof.
  intros m props stage.
  assert (H : wrapper_shape (isComponentComplete props) (isStreaming_of stage) m).
  { apply run_shape. cbn [wrapper_step]. apply settle_unmounted. }
  split; [exact H|].
  intros s. destruct H as (_ & Hs & Hi & _). unfold MusicCardWithLoadingState.
  rewrite Hs. destruct (hasBeenInitialized (hooks m)); [|reflexivity].
  now rewrite (Hi eq_refl).
Qed.

(** X22. When timeouts are pending in a reachable state, whichever of
    their callbacks run before the next render (either one, or both in
    either order, as both expire together), after that render the card
    has replaced the skeleton, the wrapper is initialized and no
    timeout is pending. *)
Theorem timeout_reveals_card props0 stage0 es fired :
  In fired firings ->
  let m := wrapper_run props0 stage0 es in
  timer1 m = true \/ timer2 m = true ->
  let m' := rerender_same (fold_left (fun x first => timeout_callback first x) fired m) in
  hooks m' = mkWrapper false true
  /\ timer1 m' = false
  /\ timer2 m' = false
  /\ forall s, MusicCardWithLoadingState (fst (latest props0 stage0 es)) (hooks m') s
               = MusicCardCore (fst (latest props0 stage0 es)) s.
Proof.
  intros Hf m Ht.
  assert (H : wrapper_shape (isComponentComplete (fst (latest props0 stage0 es)))
                (isStreaming_of (snd (latest props0 stage0 es))) m).
  { apply run_shape. cbn [wrapper_step]. apply settle_unmounted. }
  unfold MusicCardWithLoadingState.
  destruct (isComponentComplete (fst (latest props0 stage0 es))) eqn:Hc,
           (isStreaming_of (snd (latest props0 stage0 es))) eqn:Hstr;
    destruct m as [[show init] t1 t2 d]; unfold wrapper_shape in H;
    cbn in H, Ht; destruct H as (Hd & Hs & Hi & H1 & H2); subst d t1 t2 show;
    destruct init; cbn in Ht; try (destruct Ht; discriminate);
    unfold firings in Hf; cbn in Hf;
    destruct Hf as [<- | [<- | [<- | [<- | []]]]]; cbn; repeat split.
Qed.

Lemma timeout_reveals_card_witness :
  let m := wrapper_run Samples.complete (Some "STREAMING_RESPONSE")
             [Rerender Samples.complete (Some "COMPLETE")] in
  hooks (rerender_same (timeout_callback false (timeout_callback true m)))
  = mkWrapper false true.
Proof.
  intros m.
  apply (timeout_reveals_card Samples.complete (Some "STREAMING_RESPONSE")
           [Rerender Samples.complete (Some "COMPLETE")] [true; false]).
  - right. right. left. reflexivity.
  - left. reflexivity.
Defined.

(** X23. Once the card is initialized, a render with complete props
    keeps it on screen whatever the generation stage (a new streaming
    phase does not bring the skeleton back), while a render with
    incomplete props puts the skeleton back, forgets the
    initialization and leaves no timeout pending. *)
Theorem rerender_after_initialization props0 stage0 es props stage :
  let m := wrapper_run props0 stage0 es in
  hasBeenInitialized (hooks m) = true ->
  let m' := wrapper_step m (Rerender props stage) in
  (isComponentComplete props = true ->
   hooks m' = mkWrapper false true /\ timer1 m' = false /\ timer2 m' = false)
  /\ (isComponentComplete props = false ->
      hooks m' = mkWrapper true false /\ timer1 m' = false /\ timer2 m' = false).
Proof.
  intros m Hinit m'.
  assert (H : wrapper_shape (isComponentComplete props) (isStreaming_of stage) m').
  { unfold m'. cbn [wrapper_step]. eapply settle_shape.
    apply run_shape. cbn [wrapper_step]. apply settle_unmounted. }
  assert (H0 : wrapper_shape (isComponentComplete (fst (latest props0 stage0 es)))
                 (isStreaming_of (snd (latest props0 stage0 es))) m).
  { apply run_shape. cbn [wrapper_step]. apply settle_unmounted. }
  unfold m' in *. cbn [wrapper_step] in *.
  destruct m as [[show init] t1 t2 d]. cbn in Hinit. subst init.
  destruct H0 as (Hd & Hs & Hi & H1 & H2). cbn in Hd, Hs, Hi, H1, H2.
  rewrite (Hi eq_refl) in *. subst d t1 t2 show.
  destruct (isComponentComplete props), (isStreaming_of stage),
    (isStreaming_of (snd (latest props0 stage0 es)));
    cbn; split; intros; try discriminate; repeat split.
Qed.

Lemma rerender_after_initialization_witness :
  hooks (wrapper_step (wrapper_run Samples.complete None [Timeout1])
                      (Rerender Samples.complete (Some "STREAMING_RESPONSE")))
  = mkWrapper false true.
Proof.
  refine (proj1 (proj1 (rerender_after_initialization Samples.complete None [Timeout1]
                   Samples.complete (Some "STREAMING_RESPONSE") _) _)); reflexivity.
Defined.

End WrapperFacts.

(* ================================================================== *)
(** ** The core: its interval, its element, its progress bar *)

Module CoreFacts.
Import MusicCard.

Lemma same_interval_deps_eq a b :
  same_interval_deps (Some a) b = true -> a = b.
Proof.
  destruct a as [p [x|]], b as [p' [x'|]]; cbn; try discriminate.
  - intros H. apply andb_true_iff in H as [Hp Hx].
    apply Bool.eqb_prop in Hp. apply Nat.eqb_eq in Hx. congruence.
  - intros H. apply Bool.eqb_prop in H. congruence.
Qed.

Lemma commit_interval_shape s s' t :
  intervals_shape s t -> intervals_shape s' (commit_interval s' t).
Proof.
  unfold intervals_shape, commit_interval. intros [Hd Hs].
  destruct (same_interval_deps (last_deps t) (isPlaying s', audio s')) eqn:E.
  - rewrite Hd in E. apply same_interval_deps_eq in E. injection E as Hp Ha.
    unfold interval_set in *. rewrite <- Hp, <- Ha. split; [now rewrite Hd | exact Hs].
  - split; [reflexivity|].
    unfold interval_effect, cleanup, clearInterval.
    destruct (interval_set s).
    + destruct Hs as (i & Hr & Ha). rewrite Hr, Ha. cbn. rewrite Nat.eqb_refl. cbn.
      destruct (interval_set s'); cbn; eauto.
    + destruct Hs as (Hr & Ha). rewrite Hr, Ha. cbn. rewrite Hr.
      destruct (interval_set s'); cbn; eauto.
Qed.

Lemma core_step_refines p s t e :
  intervals_shape s t ->
  fst (core_step p (s, t) e) = step p s e
  /\ intervals_shape (step p s e) (snd (core_step p (s, t) e)).
Proof.
  intros H.
  assert (Hs : fst (core_step p (s, t) e) = step p s e).
  { destruct e; try reflexivity. cbn. destruct H as [_ H].
    destruct (interval_set s).
    - destruct H as (i & _ & ->). reflexivity.
    - destruct H as (_ & ->). reflexivity. }
  split; [exact Hs|].
  replace (snd (core_step p (s, t) e))
    with (commit_interval (fst (core_step p (s, t) e)) t) by reflexivity.
  rewrite Hs. eapply commit_interval_shape, H.
Qed.

Lemma core_run_refines p es : forall s t,
  intervals_shape s t ->
  fst (fold_left (core_step p) es (s, t)) = run p s es
  /\ intervals_shape (run p s es) (snd (fold_left (core_step p) es (s, t))).
Proof.
  induction es as [|e es IH]; intros s t H; [split; [reflexivity | exact H]|].
  cbn [fold_left]. destruct (core_step_refines p s t e H) as [H1 H2].
  destruct (core_step p (s, t) e) as [s' t'] eqn:E. cbn in H1, H2. subst s'.
  apply IH. exact H2.
Qed.

Lemma mount_shape : intervals_shape init (snd core_mount).
Proof. unfold intervals_shape. cbn. auto. Qed.

(** X24. The interval bookkeeping of the core agrees with its state: the
    player state is the one obtained by treating a tick as delivered
    exactly while [isPlaying && audio] holds, and at every point at most
    one interval is active, namely one exactly while that condition
    holds. No interval is ever left running beside the referenced
    one. *)
Theorem one_interval_exactly_while_playing p es :
  let s := fst (core_run p es) in
  let t := snd (core_run p es) in
  s = run p init es
  /\ (length (active t) <= 1)%nat
  /\ (interval_set s = true -> exists i, active t = [i] /\ intervalRef t = Some i)
  /\ (interval_set s = false -> active t = []).
Proof.
  intros s t.
  destruct (core_run_refines p es init (snd core_mount) mount_shape) as [H1 [_ H2]].
  change (fst (core_run p es) = run p init es) in H1.
  change (if interval_set (run p init es)
          then exists i, intervalRef t = Some i /\ active t = [i]
          else intervalRef t = None /\ active t = []) in H2.
  fold s in H1. rewrite <- H1 in H2.
  repeat split; try assumption.
  - destruct (interval_set s); [destruct H2 as (i & _ & ->) | destruct H2 as (_ & ->)];
      cbn; lia.
  - intros E. rewrite E in H2. destruct H2 as (i & Hr & Ha). eauto.
  - intros E. rewrite E in H2. apply H2.
Qed.

Lemma one_interval_exactly_while_playing_witness :
  exists i,
    active (snd (core_run "p.mp3" [Click; LoadedMetadata 0 (Fin 30); Settle 0 Fulfils]))
    = [i]
    /\ intervalRef (snd (core_run "p.mp3" [Click; LoadedMetadata 0 (Fin 30);
                                           Settle 0 Fulfils])) = Some i.
Proof.
  destruct (one_interval_exactly_while_playing "p.mp3"
              [Click; LoadedMetadata 0 (Fin 30); Settle 0 Fulfils]) as (_ & _ & H & _).
  apply H. reflexivity.
Defined.

Lemma cleanup_keeps_none t : active t = [] -> active (cleanup t) = [].
Proof.
  intros H. unfold cleanup, clearInterval. destruct (intervalRef t); cbn; now rewrite ?H.
Qed.

Lemma cleanup_clears s t : intervals_shape s t -> active (cleanup t) = [].
Proof.
  intros [_ H]. destruct (interval_set s).
  - destruct H as (i & Hr & Ha). unfold cleanup, clearInterval. rewrite Hr. cbn.
    rewrite Ha. cbn. now rewrite Nat.eqb_refl.
  - apply cleanup_keeps_none, H.
Qed.

(** X25. Unmounting the core at any point leaves no interval running. *)
Theorem unmount_clears_interval p es :
  active (unmount (snd (core_run p es))) = [].
Proof.
  destruct (core_run_refines p es init (snd core_mount) mount_shape) as [_ H].
  unfold unmount. eapply cleanup_keeps_none, cleanup_clears, H.
Qed.

(** *** The audio element *)

Lemma step_calls p s e :
  resource_inv p s ->
  Forall (fun c => call_target c = 0%nat) (calls s) ->
  Forall (fun c => call_target c = 0%nat) (calls (step p s e)).
Proof.
  unfold resource_inv.
  intros [[He Ha] | [He Ha]] Hc; destruct e; cbn [step]; unfold togglePlay, handleSeek;
    cbn; rewrite ?Ha, ?He; MusicCardFacts.step_cases; cbn; rewrite ?Ha, ?He; cbn;
    try exact Hc; try (apply Forall_app; split; [exact Hc | repeat constructor]).
Qed.

Lemma run_calls p es : forall s,
  resource_inv p s ->
  Forall (fun c => call_target c = 0%nat) (calls s) ->
  Forall (fun c => call_target c = 0%nat) (calls (run p s es)).
Proof.
  induction es as [|e es IH]; intros s Hr Hc; [exact Hc|].
  rewrite MusicCardFacts.run_cons. apply IH.
  - now apply MusicCardFacts.step_resource.
  - now apply step_calls.
Qed.

(** X26. An instance of the core constructs at most one audio element,
    for its preview URL, however many times play is requested and
    whatever fails; the state refers to it as soon as it exists, and
    every play, pause and seek call goes to that element. *)
Theorem one_audio_element p es :
  let s := run p init es in
  (length (elements s) <= 1)%nat
  /\ Forall (fun src => src = p) (elements s)
  /\ (audio s = None <-> elements s = [])
  /\ Forall (fun c => call_target c = 0%nat) (calls s).
Proof.
  intros s.
  pose proof (MusicCardFacts.run_resource p es init (MusicCardFacts.init_resource p)) as H.
  fold s in H. repeat split.
  - destruct H as [[-> _] | [-> _]]; cbn; lia.
  - destruct H as [[-> _] | [-> _]]; repeat constructor.
  - destruct H as [[He Ha] | [He Ha]]; intros; congruence.
  - destruct H as [[He Ha] | [He Ha]]; intros; congruence.
  - apply run_calls; [apply MusicCardFacts.init_resource | constructor].
Qed.

(** *** Pause *)

Lemma step_playing_has_element p s e :
  (audio s = None -> isPlaying s = false /\ awaiting s = []) ->
  (audio (step p s e) = None ->
   isPlaying (step p s e) = false /\ awaiting (step p s e) = []).
Proof.
  intros H. destruct (audio s) as [a|] eqn:Ha.
  - destruct e; cbn [step]; unfold togglePlay, handleSeek; cbn; rewrite ?Ha;
      MusicCardFacts.step_cases; cbn; rewrite ?Ha; discriminate.
  - destruct (H eq_refl) as [Hp Hw].
    destruct e; cbn [step]; unfold togglePlay, handleSeek; cbn; rewrite ?Ha, ?Hw;
      try (destruct n; cbn);
      MusicCardFacts.step_cases; cbn; rewrite ?Ha, ?Hp, ?Hw; auto; discriminate.
Qed.

Lemma run_playing_has_element p es : forall s,
  (audio s = None -> isPlaying s = false /\ awaiting s = []) ->
  (audio (run p s es) = None ->
   isPlaying (run p s es) = false /\ awaiting (run p s es) = []).
Proof.
  induction es as [|e es IH]; intros s H; [exact H|].
  rewrite MusicCardFacts.run_cons. apply IH. now apply step_playing_has_element.
Qed.

Lemma ticks_ignored p vs : forall s,
  isPlaying s = false -> run p s (map Tick vs) = s.
Proof.
  induction vs as [|v vs IH]; intros s Hp; [reflexivity|].
  cbn [map]. rewrite MusicCardFacts.run_cons. cbn [step]. unfold interval_set.
  rewrite Hp. cbn. now apply IH.
Qed.

(** X30. Pressing the button while playing pauses at once: pause is
    called on the element, no interval is left active, and the
    position keeps its last sampled value however many interval
    periods then pass. *)
Theorem pause_freezes_position p es vs :
  let s := run p init es in
  isPlaying s = true -> isLoading s = false ->
  let st := fold_left (core_step p) (Click :: map Tick vs) (core_run p es) in
  isPlaying (fst st) = false
  /\ currentTime (fst st) = currentTime s
  /\ calls (fst st) = (calls s ++ [Pause 0])%list
  /\ active (snd st) = [].
Proof.
  intros s Hp Hl st.
  destruct (core_run_refines p es init (snd core_mount) mount_shape) as [H1 H2].
  change (fold_left (core_step p) es (init, snd core_mount)) with (core_run p es) in *.
  fold s in H1, H2.
  assert (Hst : fst st = run p s (Click :: map Tick vs)
                /\ intervals_shape (run p s (Click :: map Tick vs)) (snd st)).
  { unfold st. rewrite (surjective_pairing (core_run p es)). rewrite H1.
    apply core_run_refines. exact H2. }
  destruct Hst as [Hs Ht]. rewrite Hs.
  assert (Ha : audio s = Some 0%nat).
  { destruct (MusicCardFacts.run_resource p es init (MusicCardFacts.init_resource p))
      as [[_ Hn] | [_ Hsome]]; [|exact Hsome].
    fold s in Hn.
    destruct (run_playing_has_element p es init) as [Hc _]; [intros _; split; reflexivity | exact Hn |].
    fold s in Hc. congruence. }
  assert (Hpause : step p s Click = setIsPlaying false (invoke (Pause 0) s)).
  { cbn [step]. rewrite Hl. unfold togglePlay. now rewrite Ha, Hp. }
  rewrite MusicCardFacts.run_cons, Hpause in *.
  rewrite ticks_ignored in * by reflexivity.
  repeat split.
  destruct Ht as [_ Ht]. cbn in Ht. apply Ht.
Qed.

Lemma pause_freezes_position_witness :
  let es := [Click; LoadedMetadata 0 (Fin 30); Settle 0 Fulfils; Tick (Fin 7)] in
  let st := fold_left (core_step "p.mp3") (Click :: map Tick [Fin 8; Fin 9])
              (core_run "p.mp3" es) in
  currentTime (fst st) = Fin 7 /\ active (snd st) = [].
Proof.
  intros es st.
  destruct (pause_freezes_position "p.mp3" es [Fin 8; Fin 9]) as (_ & H2 & _ & H4).
  - reflexivity.
  - reflexivity.
  - split; [exact H2 | exact H4].
Defined.

(** *** The progress bar *)

Lemma clamp_range (d : number) (q : Q) :
  ltb (Fin 0) d = true ->
  exists x, Math_min (Fin 100) (Math_max (Fin 0) (mul (div (Fin q) d) (Fin 100))) = Fin x
            /\ (0 <= x)%Q /\ (x <= 100)%Q.
Proof.
  destruct d as [| | |dq]; cbn [ltb]; try discriminate.
  - intros _. exists 0. split; [reflexivity | split; lra].
  - intros Hd. apply MusicCardFacts.Qltb_lt in Hd.
    assert (Hz : Qeq_bool dq 0 = false).
    { destruct (Qeq_bool dq 0) eqn:E; [|reflexivity]. apply Qeq_bool_iff in E. lra. }
    cbn [div]. rewrite Hz. cbn [mul]. unfold Math_max. cbn [ltb].
    destruct (Qltb 0 (q / dq * 100)) eqn:E0.
    + apply MusicCardFacts.Qltb_lt in E0. unfold Math_min. cbn [ltb].
      destruct (Qltb (q / dq * 100) 100) eqn:E1.
      * apply MusicCardFacts.Qltb_lt in E1. eexists. split; [reflexivity | split; lra].
      * exists 100. split; [reflexivity | split; lra].
    + exists 0. split; [reflexivity | split; lra].
Qed.

(** X27. In every reachable state whose position is a finite number,
    however far outside the clip a seek or a tick has put it, the
    progress fraction shown is a number between 0 and 100. *)
Theorem progress_fraction_in_range p es q :
  Forall (fun e => duration_reported e = true) es ->
  currentTime (run p init es) = Fin q ->
  exists x, pct (run p init es) = Fin x /\ (0 <= x)%Q /\ (x <= 100)%Q.
Proof.
  intros Hd Hq. unfold pct. rewrite Hq.
  apply clamp_range. now apply MusicCardFacts.run_duration_positive.
Qed.

Lemma progress_fraction_in_range_witness :
  exists x,
    pct (run "p.mp3" init [Click; LoadedMetadata 0 (Fin 30); Settle 0 Fulfils;
                           Seek (Fin (-12))]) = Fin x
    /\ (0 <= x)%Q /\ (x <= 100)%Q.
Proof.
  apply (progress_fraction_in_range "p.mp3"
           [Click; LoadedMetadata 0 (Fin 30); Settle 0 Fulfils; Seek (Fin (-12))] (-12)).
  - repeat constructor.
  - reflexivity.
Defined.

End CoreFacts.

(* ================================================================== *)
(** ** Time labels *)

Module LabelFacts.
Import MusicCard.

Example labels_at_mount :
  position_label init = Some "0:00" /\ duration_label init = Some "0:30".
Proof. split; reflexivity. Qed.

Example label_of_endless_stream : format PosInf = Some "Infinity:NaN".
Proof. reflexivity. Qed.

Lemma seconds_digits n :
  (0 <= n < 60)%Z ->
  String.length (string_of_Z n) = 1%nat \/ String.length (string_of_Z n) = 2%nat.
Proof.
  intros H. rewrite <- (Z2Nat.id n) by lia.
  assert (Hk : (Z.to_nat n < 60)%nat) by lia.
  generalize dependent (Z.to_nat n). clear. intros k Hk.
  do 60 (destruct k as [|k]; [vm_compute; auto|]). lia.
Qed.

(** X28. For every non-negative whole number of seconds below 2^53,
    formatDuration gives the minutes, a colon and exactly two characters for the
    seconds: the remainder below 60, zero-padded when it has one
    digit. *)
Theorem formatDuration_pads_seconds seconds :
  (0 <= seconds < 2 ^ 53)%Z ->
  exists ss,
    MusicData.formatDuration seconds = string_of_Z (seconds / 60) ++ ":" ++ ss
    /\ String.length ss = 2%nat
    /\ (ss = string_of_Z (seconds mod 60) \/ ss = "0" ++ string_of_Z (seconds mod 60)).
Proof.
  intros H. unfold MusicData.formatDuration.
  rewrite Z.rem_mod_nonneg by lia.
  assert (Hr : (0 <= seconds mod 60 < 60)%Z) by (apply Z.mod_pos_bound; lia).
  exists (MusicData.padStart2 (string_of_Z (seconds mod 60))).
  split; [reflexivity|].
  unfold MusicData.padStart2.
  destruct (seconds_digits _ Hr) as [Hlen | Hlen]; rewrite Hlen; auto.
  split; [|auto]. cbn. now rewrite Hlen.
Qed.

Lemma formatDuration_pads_seconds_witness :
  exists ss,
    MusicData.formatDuration 185 = string_of_Z (185 / 60) ++ ":" ++ ss
    /\ String.length ss = 2%nat
    /\ (ss = string_of_Z (185 mod 60) \/ ss = "0" ++ string_of_Z (185 mod 60)).
Proof.
  apply (formatDuration_pads_seconds 185). lia.
Defined.

Lemma toString_whole n :
  (Z.abs n < 10 ^ 21)%Z -> Number_toString (Fin (inject_Z n)) = Some (string_of_Z n).
Proof.
  intros H. unfold Number_toString. rewrite Qfloor_Z.
  assert (E : Qeq_bool (inject_Z n) (inject_Z n) = true) by (apply Qeq_bool_iff; reflexivity).
  rewrite E. cbn [andb].
  destruct (Z.ltb_spec (Z.abs n) (10 ^ 21)); [reflexivity | lia].
Qed.

Lemma floor_div_60 n : Qfloor (inject_Z n / 60) = (n / 60)%Z.
Proof. symmetry. apply (Zdiv_Qdiv n 60). Qed.

Lemma div_60_nonneg n : (0 <= n)%Z -> Qltb (inject_Z n / 60) 0 = false.
Proof.
  intros H. apply MusicCardFacts.Qltb_ge.
  apply Qle_shift_div_l; [reflexivity|].
  rewrite Qmult_0_l. change 0%Q with (inject_Z 0). now rewrite <- Zle_Qle.
Qed.

(** X29. The label the card shows for a non-negative position is the
    formatDuration of its whole seconds: the helper [format] applied to
    [Math.floor] of the position and the exported formatDuration agree
    (for positions below 10^21). *)
Theorem format_agrees_with_formatDuration q :
  (0 <= q)%Q -> (Qfloor q < 10 ^ 21)%Z ->
  format (Math_floor (Fin q)) = Some (MusicData.formatDuration (Qfloor q)).
Proof.
  intros Hq Hbig.
  assert (Hn : (0 <= Qfloor q)%Z).
  { change 0%Z with (Qfloor 0). now apply Qfloor_resp_le. }
  change (Math_floor (Fin q)) with (Fin (inject_Z (Qfloor q))).
  set (n := Qfloor q) in *.
  unfold format, MusicData.formatDuration. cbn [Math_floor div mod_60].
  change (Qeq_bool 60 0) with false. cbn [Math_floor].
  unfold Qtrunc. rewrite (div_60_nonneg n Hn). rewrite floor_div_60.
  assert (Hrem : Qfloor (inject_Z n - 60 * inject_Z (n / 60)) = Z.rem n 60).
  { rewrite Z.rem_mod_nonneg by lia.
    rewrite <- (Qfloor_Z (n mod 60)). apply Qfloor_comp.
    rewrite (Z.mod_eq n 60) by lia.
    unfold Zminus. rewrite inject_Z_plus, inject_Z_opp, inject_Z_mult.
    change (inject_Z 60) with 60%Q. ring. }
  rewrite Hrem.
  assert (Hm : (0 <= n / 60 <= n)%Z).
  { split; [apply Z.div_pos; lia | apply Z.div_le_upper_bound; lia]. }
  assert (Hr : (0 <= Z.rem n 60 < 60)%Z).
  { rewrite Z.rem_mod_nonneg by lia. apply Z.mod_pos_bound. lia. }
  rewrite !toString_whole by lia. reflexivity.
Qed.

Lemma format_agrees_with_formatDuration_witness :
  format (Math_floor (Fin (371 # 2))) = Some (MusicData.formatDuration 185).
Proof.
  apply (format_agrees_with_formatDuration (371 # 2)).
  - now apply Qle_bool_iff.
  - reflexivity.
Defined.

End LabelFacts.
